(** * scaleops.promqlpandas: a Prometheus client that materialises query
    results as label-indexed tables, with an on-disk cache for range queries.

    The development embeds [src/scaleops/promqlpandas.py] function by
    function and proves properties of the embedding.

    Conventions of the embedding:
    - a Python [str] is the list of its code points ([pystr]); Python orders
      strings by code point, which is [lex_le] here;
    - a Python [float] and a numpy [float64] are IEEE-754 binary64 values,
      represented with the Standard Library's [spec_float] and its
      correctly rounded operations at precision 53 and exponent bound 1024;
    - a Python [int] is an unbounded [Z];
    - a Python [dict] with string keys is a [gmap pystr _]; the code never
      depends on the insertion order of a label dictionary, since label
      names are sorted before use;
    - a raised exception is the [Raise] result; code that touches the file
      system or the network threads a [world] and keeps the effects it
      performed before raising. *)

From Stdlib Require Import ZArith Lia SpecFloat.
From Stdlib Require Import String Ascii.
From stdpp Require Import base option list gmap sorting.

(** ** Exceptions and results *)

Inductive exn :=
| TypeError
| ValueError
| KeyError
| IndexError
| OverflowError
| RuntimeError
| UnicodeEncodeError
| ParserError
| HTTPError
| FileNotFoundError
| FileExistsError
| IsADirectoryError
| NotADirectoryError
| ZeroDivisionError
| AttributeError.

Inductive result (A : Type) :=
| Ok (a : A)
| Raise (e : exn).
Arguments Ok {A} a.
Arguments Raise {A} e.

#[global] Instance exn_eq_dec : EqDecision exn.
Proof. solve_decision. Defined.

#[global] Instance result_ret : MRet result := @Ok.
#[global] Instance result_bind : MBind result :=
  λ A B f r, match r with Ok a => f a | Raise e => Raise e end.
#[global] Instance result_fmap : FMap result :=
  λ A B f r, match r with Ok a => Ok (f a) | Raise e => Raise e end.

Definition is_Ok {A} (r : result A) : Prop := ∃ a, r = Ok a.

(** [mapR f l] evaluates [f] on the elements of [l] from left to right and
    stops at the first exception, as a list comprehension does. *)
Fixpoint mapR {A B} (f : A → result B) (l : list A) : result (list B) :=
  match l with
  | [] => Ok []
  | x :: l' => y ← f x; ys ← mapR f l'; Ok (y :: ys)
  end.

(** ** Strings *)

Definition pystr := list N.

(** The text of an ASCII literal. *)
Definition str (s : string) : pystr := N_of_ascii <$> list_ascii_of_string s.

(** Python's [<=] on [str]: lexicographic on code points. *)
Fixpoint lex_leb (a b : pystr) : bool :=
  match a, b with
  | [], _ => true
  | _ :: _, [] => false
  | x :: a', y :: b' => if (x <? y)%N then true else if (x =? y)%N then lex_leb a' b' else false
  end.
Definition lex_le (a b : pystr) : Prop := lex_leb a b = true.
#[global] Instance lex_le_dec : RelDecision lex_le.
Proof. intros a b. unfold lex_le. apply _. Defined.

(** [prefix_strip p s] is [Some rest] when [s = p ++ rest]. *)
Fixpoint prefix_strip (p s : pystr) : option pystr :=
  match p, s with
  | [], _ => Some s
  | x :: p', y :: s' => if (x =? y)%N then prefix_strip p' s' else None
  | _ :: _, [] => None
  end.

(** ** Binary64 floating point *)

Definition float : Type := spec_float.
Definition prec : Z := 53.
Definition emax : Z := 1024.

Definition fadd : float → float → float := SFadd prec emax.
Definition fsub : float → float → float := SFsub prec emax.
Definition fmul : float → float → float := SFmul prec emax.
Definition fdiv : float → float → float := SFdiv prec emax.
Definition nan : float := S754_nan.

(** The binary64 value nearest to an integer (ties to even); an integer too
    large in magnitude becomes an infinity. *)
Definition float_of_Z (z : Z) : float := binary_normalize prec emax z 0 false.

(** The float literals of the source, each the binary64 nearest to the
    decimal: a quotient of two exactly representable integers is correctly
    rounded by [fdiv]. *)
Definition f_1e_6 : float := fdiv (float_of_Z 1) (float_of_Z 1000000).
Definition f_0_001 : float := fdiv (float_of_Z 1) (float_of_Z 1000).

(** The signed mantissa of a finite float: its value is
    [signed_mantissa * 2 ^ exponent]. *)
Definition signed (s : bool) (m : positive) : Z := if s then Z.neg m else Z.pos m.

(** [round_half_even n d], for [0 < d], is the integer nearest to [n / d],
    a tie going to the even neighbour. *)
Definition round_half_even (n d : Z) : Z :=
  let q := (n / d)%Z in
  let r := (n mod d)%Z in
  if (2 * r <? d)%Z then q
  else if (d <? 2 * r)%Z then (q + 1)%Z
  else if Z.even q then q else (q + 1)%Z.

(** Round a float to the nearest integer, ties to even: what the C [rint]
    in the default rounding mode, [np.rint] and Python's one-argument
    [round] compute on a finite float. [None] for NaN and the infinities. *)
Definition rint (f : float) : option Z :=
  match f with
  | S754_zero _ => Some 0%Z
  | S754_finite s m e =>
      Some (if (0 <=? e)%Z then (signed s m * 2 ^ e)%Z
            else round_half_even (signed s m) (2 ^ (- e)))
  | S754_infinity _ | S754_nan => None
  end.

(** The spec's rounding rule: nearest integer, a tie going away from zero. *)
Definition round_half_away (n d : Z) : Z :=
  let q := (Z.abs n / d)%Z in
  let r := (Z.abs n mod d)%Z in
  Z.sgn n * (if (2 * r <? d)%Z then q else q + 1)%Z.

Definition rint_half_away (f : float) : option Z :=
  match f with
  | S754_zero _ => Some 0%Z
  | S754_finite s m e =>
      Some (if (0 <=? e)%Z then (signed s m * 2 ^ e)%Z
            else round_half_away (signed s m) (2 ^ (- e)))
  | S754_infinity _ | S754_nan => None
  end.

(** The spec's rule for milliseconds: nearest integer, a tie going up. *)
Definition round_half_up (n d : Z) : Z := ((2 * n + d) / (2 * d))%Z.

Definition rint_half_up (f : float) : option Z :=
  match f with
  | S754_zero _ => Some 0%Z
  | S754_finite s m e =>
      Some (if (0 <=? e)%Z then (signed s m * 2 ^ e)%Z
            else round_half_up (signed s m) (2 ^ (- e)))
  | S754_infinity _ | S754_nan => None
  end.

(** ** Python numbers *)

Inductive pynum :=
| PyInt (z : Z)
| PyFloat (f : float).

(** [float(n)] for an [int]: OverflowError when [n] is too large for a
    binary64. *)
Definition int_to_float (z : Z) : result float :=
  match float_of_Z z with
  | S754_infinity _ => Raise OverflowError
  | f => Ok f
  end.

(** [float(x)]. *)
Definition py_float (x : pynum) : result float :=
  match x with
  | PyInt z => int_to_float z
  | PyFloat f => Ok f
  end.

(** [x * y] and [x + y]: exact on two ints; otherwise the int operand is
    converted to float first (OverflowError if that fails) and the
    operation is the binary64 one. *)
Definition py_mul (x y : pynum) : result pynum :=
  match x, y with
  | PyInt a, PyInt b => Ok (PyInt (a * b))
  | _, _ => f ← py_float x; g ← py_float y; Ok (PyFloat (fmul f g))
  end.

Definition py_add (x y : pynum) : result pynum :=
  match x, y with
  | PyInt a, PyInt b => Ok (PyInt (a + b))
  | _, _ => f ← py_float x; g ← py_float y; Ok (PyFloat (fadd f g))
  end.

(** [round(x)] on a float: the nearest int, ties to even; ValueError on NaN
    and OverflowError on an infinity. *)
Definition py_round (f : float) : result Z :=
  match f with
  | S754_nan => Raise ValueError
  | S754_infinity _ => Raise OverflowError
  | _ => match rint f with Some z => Ok z | None => Raise ValueError end
  end.

(** [x == y] between an int and a float that holds an integer value. *)
Definition py_eqb (x y : pynum) : bool :=
  match x, y with
  | PyInt a, PyInt b => (a =? b)%Z
  | PyFloat f, PyFloat g => SFeqb f g
  | PyInt a, PyFloat f | PyFloat f, PyInt a =>
      match rint f with
      | Some z => (z =? a)%Z && SFeqb f (float_of_Z z)
      | None => false
      end
  end.

(** ** Sorting

    [sorted(l, key=...)] is stable; insertion from the right keeps an
    element in front of the later elements that compare equal to it. *)

Fixpoint insert_by {A} (leb : A → A → bool) (x : A) (l : list A) : list A :=
  match l with
  | [] => [x]
  | y :: l' => if leb x y then x :: y :: l' else y :: insert_by leb x l'
  end.

Definition py_sorted {A} (leb : A → A → bool) (l : list A) : list A :=
  foldr (insert_by leb) [] l.

(** ** Regular expressions

    The fragment of Python's [re] that the source uses, with the matching
    order of a backtracking engine: [rmatch r s caps] lists, in the order in
    which the engine would try them, the ways in which [r] matches a prefix
    of [s]; each is the unmatched rest of [s] with the groups captured so
    far. *)

Inductive regex :=
| Class (p : N → bool)
| Lit (s : pystr)
| Cat (r1 r2 : regex)
| Alt (r1 r2 : regex)
| Plus (r : regex)
| Group (i : nat) (r : regex).

Abbreviation captures := (gmap nat pystr).

(** The iterations of a greedy [r+], given the matcher [m] of [r]: after
    one match of [r], further iterations are tried before stopping there.
    An iteration that consumed nothing is not repeated. The fuel is never
    exhausted when it exceeds the length of [s]. *)
Fixpoint plus_iter (m : pystr → captures → list (pystr * captures)) (fuel : nat)
    (s : pystr) (caps : captures) : list (pystr * captures) :=
  match fuel with
  | O => []
  | S fuel' =>
      '(s1, c1) ← m s caps;
      (if decide (length s1 < length s) then plus_iter m fuel' s1 c1 else []) ++ [(s1, c1)]
  end.

Fixpoint rmatch (r : regex) (s : pystr) (caps : captures) : list (pystr * captures) :=
  match r with
  | Class p =>
      match s with
      | c :: s' => if p c then [(s', caps)] else []
      | [] => []
      end
  | Lit l =>
      match prefix_strip l s with
      | Some s' => [(s', caps)]
      | None => []
      end
  | Cat r1 r2 => '(s1, c1) ← rmatch r1 s caps; rmatch r2 s1 c1
  | Alt r1 r2 => rmatch r1 s caps ++ rmatch r2 s caps
  | Plus r1 => plus_iter (rmatch r1) (S (length s)) s caps
  | Group i r1 =>
      '(s1, c1) ← rmatch r1 s caps;
      [(s1, <[i := take (length s - length s1) s]> c1)]
  end.

(** [re.fullmatch]: the first way of matching that consumes the whole
    string. *)
Definition re_fullmatch (r : regex) (s : pystr) : option captures :=
  snd <$> head (filter (λ m, m.1 = []) (rmatch r s ∅)).

(** [re.finditer]: the successive leftmost matches, each search resuming
    where the previous match ended (one character further after an empty
    match). *)
Fixpoint finditer_from (fuel : nat) (r : regex) (s : pystr) : list captures :=
  match fuel with
  | O => []
  | S fuel' =>
      let skip := match s with [] => [] | _ :: s' => finditer_from fuel' r s' end in
      match head (rmatch r s ∅) with
      | Some (rest, caps) =>
          caps :: (if decide (length rest < length s) then finditer_from fuel' r rest else skip)
      | None => skip
      end
  end.

Definition re_finditer (r : regex) (s : pystr) : list captures :=
  finditer_from (S (length s)) r s.

(** [r1|r2|...|rn] for the literals of a list, in its order. *)
Fixpoint alternation (ls : list pystr) : regex :=
  match ls with
  | [] => Lit []
  | [l] => Lit l
  | l :: ls' => Alt (Lit l) (alternation ls')
  end.

(** ** The libraries the source calls

    What the source takes from [unicodedata] (through [re] and [int]),
    numpy's string-to-float conversion, [dateutil] and [datetime]. *)

Class Externals := {
  (** the decimal value of a code point of category Nd: the characters
      [\d] matches and [int] accepts *)
  unicode_decimal : N → option Z;
  unicode_decimal_ascii : ∀ c, (c < 128)%N →
    unicode_decimal c = if decide (48 ≤ c ≤ 57)%N then Some (Z.of_N c - 48)%Z else None;
  unicode_decimal_range : ∀ c v, unicode_decimal c = Some v → (0 ≤ v ≤ 9)%Z;
  (** [sys.get_int_max_str_digits()]: the number of digits above which
      [int] refuses a string; 0 when there is no limit, as in an
      interpreter older than the limit, and 4300 unless it was configured.
      The interpreter accepts no limit between 1 and 639. *)
  int_max_str_digits : nat;
  int_max_str_digits_range : int_max_str_digits = 0 ∨ 640 ≤ int_max_str_digits;
  (** [np.float64(s)] on a string, ValueError when [s] is not a number *)
  np_float64 : pystr → result float;
  (** [dateutil.parser.parse] and [datetime.timestamp] *)
  datetime : Type;
  dtparser_parse : pystr → result datetime;
  datetime_timestamp : datetime → result float;
}.

Section TimeNormalizer.
Context {ext : Externals}.

Definition is_decimal (c : N) : bool := bool_decide (is_Some (unicode_decimal c)).

(** [int(s)] on a string of decimal digits. The source only applies [int]
    to what [\d+] matched. A string with more digits than the limit of the
    interpreter, leading zeros counted, is a ValueError. *)
Definition py_int (s : pystr) : result Z :=
  match s with
  | [] => Raise ValueError
  | _ =>
      if bool_decide (0 < int_max_str_digits < length s) then Raise ValueError
      else
        foldl (λ acc c, a ← acc;
                        match unicode_decimal c with
                        | Some v => Ok (10 * a + v)%Z
                        | None => Raise ValueError
                        end) (Ok 0%Z) s
  end.

Inductive Timestamp :=
| TsStr (s : pystr)
| TsFloat (f : float)
| TsDatetime (d : datetime)
| TsInt (z : Z)
| TsNone.

Inductive Duration :=
| DStr (s : pystr)
| DFloat (f : float)
| DInt (z : Z)
| DTimedelta (seconds : float)
| DNone.

Definition to_ts (ts : Timestamp) : result float :=
  match ts with
  | TsInt _ | TsNone => Raise TypeError
  | TsFloat f => Ok f
  | TsStr s => d ← dtparser_parse s; datetime_timestamp d
  | TsDatetime d => datetime_timestamp d
  end.

(** The dictionary of unit multipliers, in the order of the literal. *)
Definition duration_codes : list (pystr * pynum) :=
  [ (str "ms", PyFloat f_0_001);
    (str "s", PyInt 1);
    (str "m", PyInt 60);
    (str "h", PyInt (60 * 60));
    (str "d", PyInt (24 * 60 * 60));
    (str "w", PyInt (7 * 24 * 60 * 60));
    (str "y", PyInt (365 * 24 * 60 * 60)) ].

Definition dict_get {V} (d : list (pystr * V)) (k : pystr) : result V :=
  match list_find (λ kv, kv.1 = k) d with
  | Some (_, (_, v)) => Ok v
  | None => Raise KeyError
  end.

(** [(\d+)(ms|s|m|h|d|w|y)]: a single time component. *)
Definition pattern : regex :=
  Cat (Group 1 (Plus (Class is_decimal)))
      (Group 2 (alternation (fst <$> duration_codes))).

(** [((\d+)(ms|s|m|h|d|w|y))+]: the groups of [pattern] are the second and
    third of this expression. *)
Definition full_pattern : regex :=
  Plus (Group 1 (Cat (Group 2 (Plus (Class is_decimal)))
                     (Group 3 (alternation (fst <$> duration_codes))))).

(** [match.group(i)] is [None] for a group that took no part in the match;
    [int(None)] is a TypeError. *)
Definition group (m : captures) (i : nat) : result pystr :=
  match m !! i with
  | Some s => Ok s
  | None => Raise TypeError
  end.

(** The loop [for match in re.finditer(pattern, duration)]. *)
Fixpoint sum_components (ms : list captures) (seconds : pynum) : result pynum :=
  match ms with
  | [] => Ok seconds
  | m :: ms' =>
      num ← group m 1;
      code ← group m 2;
      n ← py_int num;
      mult ← dict_get duration_codes code;
      term ← py_mul (PyInt n) mult;
      seconds' ← py_add seconds term;
      sum_components ms' seconds'
  end.

Definition duration_to_s (duration : Duration) : result pynum :=
  match duration with
  | DTimedelta _ | DNone => Raise TypeError
  | DFloat f => Ok (PyFloat f)
  | DInt z => PyFloat <$> int_to_float z
  | DStr s =>
      match re_fullmatch full_pattern s with
      | None => Raise ValueError
      | Some _ => sum_components (re_finditer pattern s) (PyInt 0)
      end
  end.

Definition ts_to_ms (ts : Timestamp) : result Z :=
  t ← to_ts ts;
  py_round (fmul t (float_of_Z 1000)).

End TimeNormalizer.

(** ** numpy arrays *)

Definition INT64_MIN : Z := (- 2 ^ 63)%Z.
Definition INT64_MAX : Z := (2 ^ 63 - 1)%Z.

(** The least integer not below a finite float. *)
Definition ceil (f : float) : option Z :=
  match f with
  | S754_zero _ => Some 0%Z
  | S754_finite s m e =>
      Some (if (0 <=? e)%Z then (signed s m * 2 ^ e)%Z
            else (- ((- signed s m) / 2 ^ (- e)))%Z)
  | S754_infinity _ | S754_nan => None
  end.

Definition is_zero (f : float) : bool :=
  match f with S754_zero _ => true | _ => false end.

(** [len(np.arange(start, stop, step))]: [ceil((stop - start) / step)],
    computed in binary64 and clipped below at 0. The division is Python's,
    hence the ZeroDivisionError. A quotient that is zero although
    [stop - start] is not (the step is infinite, or the division
    underflows) gives one element when it is [+0.0] and none when it is
    [-0.0]. numpy reports a length it cannot compute, and one that does not
    fit its index type, as a ValueError. The memory of the model is not
    bounded. *)
Definition arange_len (start stop step : float) : result nat :=
  if is_zero step then Raise ZeroDivisionError
  else
    let delta := fsub stop start in
    match fdiv delta step with
    | S754_nan => Raise ValueError
    | S754_zero s => Ok (if negb (is_zero delta) && negb s then 1 else 0)
    | q => match ceil q with
           | None => Raise ValueError
           | Some n =>
               if ((n <? INT64_MIN) || (INT64_MAX <? n))%Z then Raise ValueError
               else Ok (Z.to_nat n)
           end
    end.

(** [np.arange(start, stop, step)]: the first two elements are [start] and
    [start + step]; numpy fills the others as [start + i * delta] with
    [delta] the difference of the first two. *)
Definition np_arange (start stop step : float) : result (list float) :=
  n ← arange_len start stop step;
  let next := fadd start step in
  let delta := fsub next start in
  Ok ((λ i, match i with
            | O => start
            | S O => next
            | _ => fadd start (fmul (float_of_Z (Z.of_nat i)) delta)
            end) <$> seq 0 n).

(** [np.rint(x).astype(np.int64)] on one element. The conversion of a NaN,
    of an infinity or of a value outside the range of int64 is undefined
    in C; x86-64 yields the least int64, which is what is modelled. *)
Definition rint_int64 (f : float) : Z :=
  match rint f with
  | Some z => if ((INT64_MIN <=? z) && (z <=? INT64_MAX))%Z then z else INT64_MIN
  | None => INT64_MIN
  end.

(** The position an index denotes in an axis of length [n]: a negative
    index counts from the end, an index outside [-n, n) is an IndexError. *)
Definition normalize_index (n : nat) (i : Z) : result nat :=
  if ((0 <=? i) && (i <? Z.of_nat n))%Z then Ok (Z.to_nat i)
  else if ((- Z.of_nat n <=? i) && (i <? 0))%Z then Ok (Z.to_nat (i + Z.of_nat n))
  else Raise IndexError.

(** The stores [row[j] = v] for a list of positions and values, in order. *)
Definition store_all (row : list float) (jvs : list (nat * float)) : list float :=
  foldl (λ r jv, <[jv.1 := jv.2]> r) row jvs.

(** [row[inds] = vals] with an integer array [inds]: every index is checked
    first, then the values are stored in order, so that of two samples with
    the same position the later one stays. *)
Definition setitem_fancy (row : list float) (inds : list Z) (vals : list float)
  : result (list float) :=
  js ← mapR (normalize_index (length row)) inds;
  Ok (store_all row (zip js vals)).

(** [data[ii, inds] = vals]. *)
Definition setitem_row (data : list (list float)) (ii : nat) (inds : list Z)
    (vals : list float) : result (list (list float)) :=
  match data !! ii with
  | None => Raise IndexError
  | Some row => row' ← setitem_fancy row inds vals; Ok (<[ii := row']> data)
  end.

(** [data.T] for [data] of shape [(length data, n)]. *)
Definition np_T (n : nat) (data : list (list float)) : list (list float) :=
  (λ j, (λ row, default nan (row !! j)) <$> data) <$> seq 0 n.

(** ** The response of the query engine *)

Abbreviation LabelSet := (gmap pystr pystr).

(** An element of a vector result: [{'metric': {...}, 'value': [t, "v"]}]. *)
Record vector_sample := { vs_metric : LabelSet; vs_value : float * pystr }.

(** An element of a matrix result:
    [{'metric': {...}, 'values': [[t, "v"], ...]}]. *)
Record matrix_series := { ms_metric : LabelSet; ms_values : list (float * pystr) }.

(** [response['data']]: the dictionary with the keys ['resultType'] and
    ['result']. For a result type the client does not know, ['result'] is
    taken to be an empty list. *)
Inductive prom_data :=
| DataVector (result : list vector_sample)
| DataMatrix (result : list matrix_series)
| DataScalar (result : float * pystr)
| DataString (result : float * pystr)
| DataOther (resultType : pystr).

(** ** pandas objects *)

Record MultiIndex := { names : list pystr; tuples : list (list (option pystr)) }.
Record Series := { series_data : list float; series_index : MultiIndex }.
Record DataFrame := {
  df_values : list (list float);
  df_columns : MultiIndex;
  df_index : list float }.

Inductive pandas :=
| PdMatrix (df : DataFrame)
| PdVector (s : Series)
| PdScalar (x : list float)
| PdString (s : float * pystr).

(** ** Label Index Builder *)

Definition _merge_metric_labels (metrics : list LabelSet) (labels : option LabelSet)
  : list LabelSet :=
  match labels with
  | Some l => if decide (l = ∅) then metrics else (λ m, l ∪ m) <$> metrics
  | None => metrics
  end.

(** [if '__name__' in m.keys(): m['metric_name'] = m.pop('__name__')]. *)
Definition remap_name (m : LabelSet) : LabelSet :=
  match m !! str "__name__" with
  | Some v => <[str "metric_name" := v]> (delete (str "__name__") m)
  | None => m
  end.

(** The loop of [_metric_index]: each label set is remapped in place and
    its keys join [levels]. The state is [levels] and the label sets
    already visited. *)
Definition levels_loop (metrics_labels : list LabelSet) : gset pystr * list LabelSet :=
  foldl (λ st m, let m' := remap_name m in (st.1 ∪ dom m', st.2 ++ [m']))
        (∅, []) metrics_labels.

Definition _metric_index (metrics : list LabelSet) (labels : option LabelSet)
  : result MultiIndex :=
  let metrics_labels := _merge_metric_labels metrics labels in
  let '(levels, metrics_labels) := levels_loop metrics_labels in
  let levels := py_sorted lex_leb (elements levels) in
  if decide (length levels = 0) then Raise RuntimeError
  else
    let mt := (λ m : LabelSet, (λ level, m !! level) <$> levels) <$> metrics_labels in
    Ok {| names := levels; tuples := mt |}.

(** ** Materializers *)

Section Materializers.
Context {ext : Externals}.

(** The loop of [_vector_to_numpy] from series [ii] on. *)
Fixpoint vector_loop (ii : nat) (results : list vector_sample)
    (data : list float) (metrics : list LabelSet)
  : result (list float * list LabelSet) :=
  match results with
  | [] => Ok (data, metrics)
  | t :: rest =>
      let metric := vs_metric t in
      let value := (vs_value t).2 in
      x ← np_float64 value;
      vector_loop (S ii) rest (<[ii := x]> data) (metrics ++ [metric])
  end.

Definition _vector_to_numpy (results : list vector_sample)
  : result (list float * list LabelSet) :=
  let data := replicate (length results) nan in
  vector_loop 0 results data [].

(** [metric_times, values = zip( *t['values'])]: the unpacking needs the
    two tuples that [zip] yields, and [zip] of nothing yields none. *)
Definition unzip_values (values : list (float * pystr)) : result (list float * list pystr) :=
  match values with
  | [] => Raise ValueError
  | _ => Ok (fst <$> values, snd <$> values)
  end.

(** The slot of a timestamp: [np.rint((t - start) / step).astype(np.int64)]. *)
Definition slot (start step t : float) : Z :=
  rint_int64 (fdiv (fsub t start) step).

(** The loop of [_matrix_to_numpy] from series [ii] on. *)
Fixpoint matrix_loop (start step : float) (ii : nat) (results : list matrix_series)
    (data : list (list float)) (metrics : list LabelSet)
  : result (list (list float) * list LabelSet) :=
  match results with
  | [] => Ok (data, metrics)
  | t :: rest =>
      let metric := ms_metric t in
      '(metric_times, values) ← unzip_values (ms_values t);
      let inds := slot start step <$> metric_times in
      vals ← mapR np_float64 values;
      data' ← setitem_row data ii inds vals;
      matrix_loop start step (S ii) rest data' (metrics ++ [metric])
  end.

Definition _matrix_to_numpy (results : list matrix_series) (start end_ step : float)
  : result (list (list float) * list LabelSet * list float) :=
  times ← np_arange start (fadd end_ f_1e_6) step;
  let data := replicate (length results) (replicate (length times) nan) in
  '(data, metrics) ← matrix_loop start step 0 results data [];
  Ok (data, metrics, times).

Definition _numpy_to_series (data : list float) (metrics : list LabelSet)
    (labels : option LabelSet) : result Series :=
  index ← _metric_index metrics labels;
  Ok {| series_data := data; series_index := index |}.

Definition _numpy_to_dataframe (data : list (list float)) (metrics : list LabelSet)
    (times : list float) (labels : option LabelSet) : result DataFrame :=
  columns ← _metric_index metrics labels;
  Ok {| df_values := np_T (length times) data; df_columns := columns; df_index := times |}.

(** [sorted(l, key=lambda r: sort(r['metric']))]. The key function is taken
    to be total, with integer keys. *)
Definition sorted_by_metric {A} (metric : A → LabelSet) (sort : LabelSet → Z) (l : list A)
  : list A :=
  py_sorted (λ a b, (sort (metric a) <=? sort (metric b))%Z) l.

Definition _to_pandas (results : prom_data) (start end_ : option float)
    (step : option pynum) (sort : option (LabelSet → Z)) (labels : option LabelSet)
  : result pandas :=
  match results with
  | DataVector r0 =>
      let r := match sort with Some f => sorted_by_metric vs_metric f r0 | None => r0 end in
      '(data, metrics) ← _vector_to_numpy r;
      PdVector <$> _numpy_to_series data metrics labels
  | DataMatrix r0 =>
      let r := match sort with Some f => sorted_by_metric ms_metric f r0 | None => r0 end in
      match start, end_, step with
      | Some start, Some end_, Some step =>
          step ← py_float step;
          '(data, metrics, times) ← _matrix_to_numpy r start end_ step;
          PdMatrix <$> _numpy_to_dataframe data metrics times labels
      | _, _, _ => Raise TypeError
      end
  | DataScalar (t, v) =>
      (* the elements of a scalar result are a float and a str, neither of
         which has a ['metric'] *)
      match sort with
      | Some _ => Raise TypeError
      | None => x ← np_float64 v; Ok (PdScalar [t; x])
      end
  | DataString r =>
      match sort with
      | Some _ => Raise TypeError
      | None => Ok (PdString r)
      end
  | DataOther _ => Raise ValueError
  end.

End Materializers.

(** ** hashlib.sha256 and str.encode

    SHA-256 as specified in FIPS 180-4, on bytes given as integers below
    256 and words as integers below [2 ^ 32]. *)

Module SHA256.
Local Open Scope Z_scope.

Definition w32 (x : Z) : Z := x mod 2 ^ 32.
Definition add32 (x y : Z) : Z := w32 (x + y).
Definition rotr (n x : Z) : Z := Z.lor (Z.shiftr x n) (w32 (Z.shiftl x (32 - n))).
Definition not32 (x : Z) : Z := Z.lxor x (2 ^ 32 - 1).

Definition Ch (x y z : Z) : Z := Z.lxor (Z.land x y) (Z.land (not32 x) z).
Definition Maj (x y z : Z) : Z := Z.lxor (Z.lxor (Z.land x y) (Z.land x z)) (Z.land y z).
Definition Sigma0 (x : Z) : Z := Z.lxor (Z.lxor (rotr 2 x) (rotr 13 x)) (rotr 22 x).
Definition Sigma1 (x : Z) : Z := Z.lxor (Z.lxor (rotr 6 x) (rotr 11 x)) (rotr 25 x).
Definition sigma0 (x : Z) : Z := Z.lxor (Z.lxor (rotr 7 x) (rotr 18 x)) (Z.shiftr x 3).
Definition sigma1 (x : Z) : Z := Z.lxor (Z.lxor (rotr 17 x) (rotr 19 x)) (Z.shiftr x 10).

(** The integer cube root, found bit by bit from bit [bits - 1] down. *)
Fixpoint cube_root_bits (bits : nat) (n acc : Z) : Z :=
  match bits with
  | O => acc
  | S b =>
      let c := acc + 2 ^ Z.of_nat b in
      if c * c * c <=? n then cube_root_bits b n c else cube_root_bits b n acc
  end.

Definition cube_root (n : Z) : Z := cube_root_bits 48 n 0.

Definition primes : list Z :=
  [ 2; 3; 5; 7; 11; 13; 17; 19; 23; 29; 31; 37; 41; 43; 47; 53;
    59; 61; 67; 71; 73; 79; 83; 89; 97; 101; 103; 107; 109; 113; 127; 131;
    137; 139; 149; 151; 157; 163; 167; 173; 179; 181; 191; 193; 197; 199; 211; 223;
    227; 229; 233; 239; 241; 251; 257; 263; 269; 271; 277; 281; 283; 293; 307; 311 ].

(** The round constants: the first 32 bits of the fractional parts of the
    cube roots of the first 64 primes. *)
Definition K : list Z := (λ p, w32 (cube_root (p * 2 ^ 96))) <$> primes.

Record state := State { ha : Z; hb : Z; hc : Z; hd : Z; he : Z; hf : Z; hg : Z; hh : Z }.

(** The initial hash value: the first 32 bits of the fractional parts of
    the square roots of the first 8 primes. *)
Definition frac_sqrt (p : Z) : Z := w32 (Z.sqrt (p * 2 ^ 64)).

Definition H0 : state :=
  State (frac_sqrt 2) (frac_sqrt 3) (frac_sqrt 5) (frac_sqrt 7)
        (frac_sqrt 11) (frac_sqrt 13) (frac_sqrt 17) (frac_sqrt 19).

(** The message with its padding: a bit 1, zeros up to 56 modulo 64 bytes,
    and the length in bits on 8 bytes, most significant first. *)
Definition be_bytes (n : nat) (x : Z) : list Z :=
  (λ i, Z.shiftr x (8 * Z.of_nat i) mod 256) <$> rev (seq 0 n).

Definition pad (msg : list Z) : list Z :=
  let l := Z.of_nat (length msg) in
  let zeros := Z.to_nat ((55 - l) mod 64) in
  msg ++ [0x80] ++ replicate zeros 0 ++ be_bytes 8 (8 * l).

Fixpoint be_words (bs : list Z) : list Z :=
  match bs with
  | b3 :: b2 :: b1 :: b0 :: bs' =>
      (Z.shiftl b3 24 + Z.shiftl b2 16 + Z.shiftl b1 8 + b0) :: be_words bs'
  | _ => []
  end.

(** The message schedule, most recent word first. *)
Fixpoint schedule (n : nat) (ws : list Z) : list Z :=
  match n with
  | O => ws
  | S n' =>
      let w := add32 (add32 (sigma1 (nth 1 ws 0)) (nth 6 ws 0))
                     (add32 (sigma0 (nth 14 ws 0)) (nth 15 ws 0)) in
      schedule n' (w :: ws)
  end.

Definition round (s : state) (kw : Z * Z) : state :=
  let t1 := add32 (add32 (add32 (hh s) (Sigma1 (he s))) (Ch (he s) (hf s) (hg s)))
                  (add32 kw.1 kw.2) in
  let t2 := add32 (Sigma0 (ha s)) (Maj (ha s) (hb s) (hc s)) in
  State (add32 t1 t2) (ha s) (hb s) (hc s) (add32 (hd s) t1) (he s) (hf s) (hg s).

Definition compress (s : state) (block : list Z) : state :=
  let ws := rev (schedule 48 (rev block)) in
  let s' := foldl round s (zip K ws) in
  State (add32 (ha s) (ha s')) (add32 (hb s) (hb s')) (add32 (hc s) (hc s'))
        (add32 (hd s) (hd s')) (add32 (he s) (he s')) (add32 (hf s) (hf s'))
        (add32 (hg s) (hg s')) (add32 (hh s) (hh s')).

(** The blocks of 16 words of a list of words. *)
Fixpoint blocks (fuel : nat) (ws : list Z) : list (list Z) :=
  match fuel, ws with
  | S fuel', _ :: _ => take 16 ws :: blocks fuel' (drop 16 ws)
  | _, _ => []
  end.

Definition sha256 (msg : list Z) : state :=
  let ws := be_words (pad msg) in
  foldl compress H0 (blocks (length ws) ws).

Definition digest (s : state) : list Z :=
  be_bytes 4 (ha s) ++ be_bytes 4 (hb s) ++ be_bytes 4 (hc s) ++ be_bytes 4 (hd s) ++
  be_bytes 4 (he s) ++ be_bytes 4 (hf s) ++ be_bytes 4 (hg s) ++ be_bytes 4 (hh s).

End SHA256.

(** The code point of a lowercase hexadecimal digit. *)
Definition hex_digit (d : Z) : N :=
  if (d <? 10)%Z then Z.to_N (48 + d) else Z.to_N (87 + d).

(** [bytes.hex()]: two lowercase digits per byte. *)
Definition hex (bs : list Z) : pystr :=
  b ← bs; [hex_digit (b / 16 mod 16); hex_digit (b mod 16)].

(** The UTF-8 encoding of one code point; the surrogates have none. *)
Definition utf8_char (c : N) : result (list Z) :=
  let z := Z.of_N c in
  if (z <? 0x80)%Z then Ok [z]
  else if (z <? 0x800)%Z then
    Ok [Z.lor 0xC0 (Z.shiftr z 6); Z.lor 0x80 (Z.land z 0x3F)]
  else if (z <? 0x10000)%Z then
    if ((0xD800 <=? z) && (z <=? 0xDFFF))%Z then Raise UnicodeEncodeError
    else Ok [Z.lor 0xE0 (Z.shiftr z 12); Z.lor 0x80 (Z.land (Z.shiftr z 6) 0x3F);
             Z.lor 0x80 (Z.land z 0x3F)]
  else if (z <? 0x110000)%Z then
    Ok [Z.lor 0xF0 (Z.shiftr z 18); Z.lor 0x80 (Z.land (Z.shiftr z 12) 0x3F);
        Z.lor 0x80 (Z.land (Z.shiftr z 6) 0x3F); Z.lor 0x80 (Z.land z 0x3F)]
  else Raise UnicodeEncodeError.

(** [s.encode('utf-8')]. *)
Definition encode_utf8 (s : pystr) : result (list Z) :=
  bss ← mapR utf8_char s; Ok (concat bss).

(** [hashlib.sha256(query.encode('utf-8')).hexdigest()]. *)
Definition sha256_hexdigest (query : pystr) : result pystr :=
  bs ← encode_utf8 query;
  Ok (hex (SHA256.digest (SHA256.sha256 bs))).

(** ** Parquet files

    What the source takes from pandas and pyarrow to store a table and to
    read one back. Nothing is assumed of the two: writing a table may
    raise, reading a file may raise, and the table read from a file need
    not be the table that was written to it. *)

Class Parquet := {
  (** the bytes that [df.to_parquet] writes for a table *)
  parquet_write : DataFrame → result (list Z);
  (** the table that [pd.read_parquet] builds from the bytes of a file *)
  parquet_read : list Z → result DataFrame;
}.

(** ** The file system and the network

    A path is the list of its components; the file system maps the paths
    that exist to a directory or to a file with its bytes. Every access to
    a path and every request is appended to the trace of the world. *)

Abbreviation path := (list pystr).

Inductive node :=
| Dir
| File (content : list Z).

Inductive param :=
| ParamStr (s : pystr)
| ParamNum (x : pynum).

Record request := {
  req_api_url : pystr;
  req_path : pystr;
  req_headers : option LabelSet;
  req_params : list (pystr * param) }.

(** The response: the HTTP status, and from the JSON body the ['status']
    and the ['data']. *)
Record reply := {
  status_code : Z;
  status : pystr;
  data : prom_data }.

Inductive event :=
| EvGet (r : request)
| EvExists (p : path)
| EvMakedirs (p : path)
| EvRemove (p : path)
| EvRead (p : path)
| EvWrite (p : path)
| EvRmtree (p : path).

Record world := { fs : gmap path node; trace : list event }.

(** The transport collaborator: what [requests.Session.get] returns. *)
Class Transport := { http_get : request → result reply }.

(** Programs that raise and act on the world. *)
Definition Prog (A : Type) : Type := world → result A * world.

Definition retW {A} (a : A) : Prog A := λ w, (Ok a, w).
Definition lift {A} (r : result A) : Prog A := λ w, (r, w).
Definition bindW {A B} (m : Prog A) (k : A → Prog B) : Prog B :=
  λ w, match m w with
       | (Ok a, w') => k a w'
       | (Raise e, w') => (Raise e, w')
       end.

Notation "'let*' x := m 'in' k" := (bindW m (λ x, k))
  (at level 10, x name, m at level 100, k at level 200, only parsing).

Definition emit (ev : event) (w : world) : world :=
  {| fs := fs w; trace := trace w ++ [ev] |}.

Definition set_fs (f : gmap path node) (w : world) : world :=
  {| fs := f; trace := trace w |}.

Definition is_dir (f : gmap path node) (p : path) : bool :=
  match p, f !! p with
  | [], _ => true
  | _, Some Dir => true
  | _, _ => false
  end.

Definition is_file (f : gmap path node) (p : path) : bool :=
  match f !! p with
  | Some (File _) => true
  | _ => false
  end.

(** [os.path.exists(p)]. *)
Definition os_path_exists (p : path) : Prog bool :=
  λ w, (Ok (bool_decide (is_Some (fs w !! p))), emit (EvExists p) w).

(** The prefixes of a path, from its first component to itself. *)
Definition ancestors (p : path) : list path := (λ n, take n p) <$> seq 1 (length p).

(** [os.makedirs(p)]: the missing directories down to [p] are created. *)
Definition os_makedirs (p : path) : Prog unit :=
  λ w, let w := emit (EvMakedirs p) w in
       if bool_decide (is_Some (fs w !! p)) then (Raise FileExistsError, w)
       else if bool_decide (Exists (λ q, is_file (fs w) q = true) (ancestors p))
       then (Raise NotADirectoryError, w)
       else (Ok tt, set_fs (foldr (λ q f, <[q := Dir]> f) (fs w) (ancestors p)) w).

(** [os.remove(p)]. A path that is not there is reported as
    FileNotFoundError also when a regular file stands where one of its
    directories should be, for which the operating system has
    NotADirectoryError. *)
Definition os_remove (p : path) : Prog unit :=
  λ w, let w := emit (EvRemove p) w in
       match fs w !! p with
       | Some (File _) => (Ok tt, set_fs (delete p (fs w)) w)
       | Some Dir => (Raise IsADirectoryError, w)
       | None => (Raise FileNotFoundError, w)
       end.

(** [pd.read_parquet(p)]: the table that the bytes of the file give, or
    the error of reading them. *)
Definition read_parquet {pq : Parquet} (p : path) : Prog DataFrame :=
  λ w, let w := emit (EvRead p) w in
       match fs w !! p with
       | Some (File bytes) => (parquet_read bytes, w)
       | Some Dir => (Raise IsADirectoryError, w)
       | None => (Raise FileNotFoundError, w)
       end.

(** [df.to_parquet(p)]: the table is serialised, then the file is opened
    for writing and takes the bytes. *)
Definition to_parquet {pq : Parquet} (df : DataFrame) (p : path) : Prog unit :=
  λ w, let w := emit (EvWrite p) w in
       match parquet_write df with
       | Raise e => (Raise e, w)
       | Ok bytes =>
           if bool_decide (Exists (λ q, is_file (fs w) q = true) (ancestors (removelast p)))
           then (Raise NotADirectoryError, w)
           else if negb (is_dir (fs w) (removelast p)) then (Raise FileNotFoundError, w)
           else if is_dir (fs w) p then (Raise IsADirectoryError, w)
           else (Ok tt, set_fs (<[p := File bytes]> (fs w)) w)
       end.

(** [shutil.rmtree(p, ignore_errors=True)]. *)
Definition shutil_rmtree (p : path) : Prog unit :=
  λ w, let w := emit (EvRmtree p) w in
       match fs w !! p with
       | Some Dir => (Ok tt, set_fs (filter (λ kv, ¬ p `prefix_of` kv.1) (fs w)) w)
       | _ => (Ok tt, w)
       end.

(** ** The client *)

Record Prometheus := {
  api_url : pystr;
  headers : option LabelSet;
  _cache_path : option path }.

(** [cache_path / f'{query_hash}.parquet']. *)
Definition cache_file (cache_path : path) (query_hash : pystr) : path :=
  cache_path ++ [query_hash ++ str ".parquet"].

(** Indexing a [str] with a [str] is a TypeError. *)
Definition str_getitem (s key : pystr) : result LabelSet := Raise TypeError.

(** The keys of [response['data']], which is what iterating over the
    dictionary yields. *)
Definition data_keys (d : prom_data) : list pystr := [str "resultType"; str "result"].

Section Client.
Context {ext : Externals} {net : Transport} {pq : Parquet}.

Definition flush_cache (self : Prometheus) : Prog unit :=
  match _cache_path self with
  | Some cache_path => shutil_rmtree cache_path
  | None => retW tt
  end.

Definition flush_query_cache (self : Prometheus) (query : pystr) : Prog unit :=
  let* query_hash := lift (sha256_hexdigest query) in
  match _cache_path self with
  | Some cache_path => os_remove (cache_file cache_path query_hash)
  | None => lift (Raise TypeError)
  end.

Definition _do_query (self : Prometheus) (path : pystr) (params : list (pystr * param))
  : Prog prom_data :=
  λ w,
    let req := {| req_api_url := api_url self; req_path := path;
                  req_headers := headers self; req_params := params |} in
    let w := emit (EvGet req) w in
    match http_get req with
    | Raise e => (Raise e, w)
    | Ok resp =>
        let code := status_code resp in
        if (negb (bool_decide (code ∈ [400; 422; 503]%Z))
            && (400 <=? code)%Z && (code <? 600)%Z)%bool
        then (Raise HTTPError, w)
        else if decide (status resp = str "success") then (Ok (data resp), w)
        else (Raise RuntimeError, w)
    end.

(** An optional parameter that is normalised when it is given. *)
Definition optional {A B} (f : A → result B) (x : option A) : result (option B) :=
  match x with
  | Some a => Some <$> f a
  | None => Ok None
  end.

Definition opt_param {B} (name : string) (f : B → param) (x : option B)
  : list (pystr * param) :=
  match x with
  | Some b => [(str name, f b)]
  | None => []
  end.

Definition query (self : Prometheus) (query : pystr) (labels : option LabelSet)
    (time : option Timestamp) (timeout : option Duration)
    (sort : option (LabelSet → Z)) : Prog pandas :=
  let* time := lift (optional to_ts time) in
  let* timeout := lift (optional duration_to_s timeout) in
  let params := [(str "query", ParamStr query)]
                  ++ opt_param "time" (λ t, ParamNum (PyFloat t)) time
                  ++ opt_param "timeout" ParamNum timeout in
  let* results := _do_query self (str "api/v1/query") params in
  match sort with
  | Some sort =>
      (* [sorted(results, key=lambda r: sort(r['metric']))] iterates over
         the dictionary [results], that is over its keys *)
      let* keys := lift (mapR (λ r, sort <$> str_getitem r (str "metric"))
                              (data_keys results)) in
      (* [_to_pandas] on the sorted list of keys *)
      lift (Raise TypeError)
  | None => lift (_to_pandas results None None None None None)
  end.

Definition query_range (self : Prometheus) (query : pystr) (start end_ : Timestamp)
    (step : Duration) (labels : option LabelSet) (timeout : option Duration)
    (sort : option (LabelSet → Z)) (flush_cache : bool) : Prog pandas :=
  let* epoch_start := lift (to_ts start) in
  let* epoch_end := lift (to_ts end_) in
  let* step_seconds := lift (duration_to_s step) in
  let* timeout := lift (optional duration_to_s timeout) in
  let params := [(str "query", ParamStr query);
                 (str "start", ParamNum (PyFloat epoch_start));
                 (str "end", ParamNum (PyFloat epoch_end));
                 (str "step", ParamNum step_seconds)]
                  ++ opt_param "timeout" ParamNum timeout in
  let* query_hash := lift (sha256_hexdigest query) in
  let* cached :=
    match _cache_path self with
    | Some cache_path =>
        let* _ := (if flush_cache then flush_query_cache self query else retW tt) in
        let* dir_exists := os_path_exists cache_path in
        if dir_exists then
          let* file_exists := os_path_exists (cache_file cache_path query_hash) in
          if file_exists then
            let* df := read_parquet (cache_file cache_path query_hash) in
            retW (Some df)
          else retW None
        else
          let* _ := os_makedirs cache_path in
          retW None
    | None => retW None
    end in
  match cached with
  | Some df => retW (PdMatrix df)
  | None =>
      let* results := _do_query self (str "api/v1/query_range") params in
      let* metric_df := lift (_to_pandas results (Some epoch_start) (Some epoch_end)
                                         (Some step_seconds) sort labels) in
      let* _ :=
        match _cache_path self with
        | Some cache_path =>
            match metric_df with
            | PdMatrix df => to_parquet df (cache_file cache_path query_hash)
            | _ => lift (Raise AttributeError)
            end
        | None => retW tt
        end in
      retW metric_df
  end.

End Client.

(** ** Exact values and rounding rules, for the statements *)

(** The exact value of a finite float, as a fraction whose denominator is a
    power of two. *)
Definition float_ratio (f : float) : option (Z * Z) :=
  match f with
  | S754_zero _ => Some (0, 1)%Z
  | S754_finite s m e =>
      Some (if (0 <=? e)%Z then (signed s m * 2 ^ e, 1)%Z else (signed s m, 2 ^ (- e))%Z)
  | S754_infinity _ | S754_nan => None
  end.

(** [r] is an integer nearest to [n / d]. *)
Definition nearest (n d r : Z) : Prop := (2 * Z.abs (r * d - n) ≤ d)%Z.

(** [n / d] is halfway between [r] and another integer. *)
Definition halfway (n d r : Z) : Prop := (2 * Z.abs (r * d - n) = d)%Z.

(** Round to nearest, ties to even. *)
Definition nearest_even (n d r : Z) : Prop :=
  nearest n d r ∧ (halfway n d r → Z.even r = true).

(** The slot of a timestamp under the rule of the spec: ties away from
    zero. *)
Definition slot_half_away (start step t : float) : option Z :=
  rint_half_away (fdiv (fsub t start) step).

(** The position at which a sample with timestamp [t] is stored in a row
    of length [n]. *)
Definition position (n : nat) (start step t : float) : result nat :=
  normalize_index n (slot start step t).

Section SeriesRow.
Context {ext : Externals}.

(** What one iteration of the loop stores in the row of a series. *)
Definition series_row (start step : float) (row : list float) (series : matrix_series)
  : result (list float) :=
  '(metric_times, values) ← unzip_values (ms_values series);
  vals ← mapR np_float64 values;
  setitem_fancy row (slot start step <$> metric_times) vals.

End SeriesRow.

(** ** The language of a regular expression *)

Inductive lang : regex → pystr → Prop :=
| lang_class p c : p c = true → lang (Class p) [c]
| lang_lit l : lang (Lit l) l
| lang_cat r1 r2 w1 w2 : lang r1 w1 → lang r2 w2 → lang (Cat r1 r2) (w1 ++ w2)
| lang_alt_l r1 r2 w : lang r1 w → lang (Alt r1 r2) w
| lang_alt_r r1 r2 w : lang r2 w → lang (Alt r1 r2) w
| lang_plus_one r w : lang r w → lang (Plus r) w
| lang_plus_more r w1 w2 : lang r w1 → lang (Plus r) w2 → lang (Plus r) (w1 ++ w2)
| lang_group i r w : lang r w → lang (Group i r) w.

Section DurationGrammar.
Context {ext : Externals}.

(** [to_millis] as the spec words it: rounded half-up. *)
Definition to_millis_half_up (ts : Timestamp) : result Z :=
  t ← to_ts ts;
  match rint_half_up (fmul t (float_of_Z 1000)) with
  | Some z => Ok z
  | None => Raise ValueError
  end.

(** The duration grammar of the spec: one or more [<integer><unit>] pairs
    with a unit among ms, s, m, h, d, w and y. A pair is kept as the text
    of its integer and the text of its unit. *)
Definition units : list pystr :=
  [str "ms"; str "s"; str "m"; str "h"; str "d"; str "w"; str "y"].

Definition valid_pair (c : pystr * pystr) : Prop :=
  c.1 ≠ [] ∧ Forall (λ d, is_Some (unicode_decimal d)) c.1 ∧ c.2 ∈ units.

Definition render (pairs : list (pystr * pystr)) : pystr :=
  c ← pairs; c.1 ++ c.2.

Definition in_grammar (s : pystr) : Prop :=
  ∃ pairs, pairs ≠ [] ∧ Forall valid_pair pairs ∧ s = render pairs.

(** One [<integer><unit>] pair as a regular expression, with the groups
    numbered [i] and [j]. *)
Definition pair_re (i j : nat) : regex :=
  Cat (Group i (Plus (Class is_decimal))) (Group j (alternation units)).

(** A run of digits stops before [s]: [s] is empty or begins with a
    character that is not a decimal digit. *)
Definition stops (s : pystr) : Prop :=
  match s with
  | [] => True
  | c :: _ => is_decimal c = false
  end.

(** [s] is empty or begins with a decimal digit. *)
Definition starts_digit (s : pystr) : Prop :=
  match s with
  | [] => True
  | c :: _ => is_decimal c = true
  end.

(** The groups of the match of one pair. *)
Definition pair_groups (c : pystr * pystr) : captures :=
  <[2 := c.2]> (<[1 := c.1]> ∅).

(** The integer a string of decimal digits denotes. *)
Definition decimal_value (ds : pystr) : Z :=
  foldl (λ a d, 10 * a + default 0 (unicode_decimal d))%Z 0%Z ds.

(** The multiplier of a unit, in seconds: ms=0.001, s=1, m=60, h=3600,
    d=86400, w=604800, y=31536000. The millisecond is the binary64 nearest
    to a thousandth, [0x3F50624DD2F1A9FC]. *)
Definition millisecond : float := S754_finite false 4611686018427388 (-62).

Definition multiplier (u : pystr) : pynum :=
  if decide (u = str "ms") then PyFloat millisecond
  else if decide (u = str "s") then PyInt 1
  else if decide (u = str "m") then PyInt 60
  else if decide (u = str "h") then PyInt 3600
  else if decide (u = str "d") then PyInt 86400
  else if decide (u = str "w") then PyInt 604800
  else if decide (u = str "y") then PyInt 31536000
  else PyInt 0.

(** A digit string that [int] converts: the interpreter has no limit, or
    the string is not longer than its limit. *)
Definition convertible (ds : pystr) : Prop :=
  int_max_str_digits = 0 ∨ length ds ≤ int_max_str_digits.

(** The integer of a pair, as [int] gives it: ValueError when the string
    has more digits than the interpreter converts. *)
Definition pair_value (ds : pystr) : result Z :=
  if bool_decide (0 < int_max_str_digits < length ds) then Raise ValueError
  else Ok (decimal_value ds).

(** The sum of integer times multiplier, from left to right, in Python's
    arithmetic. *)
Definition add_pair (acc : result pynum) (c : pystr * pystr) : result pynum :=
  seconds ← acc;
  n ← pair_value c.1;
  term ← py_mul (PyInt n) (multiplier c.2);
  py_add seconds term.

Definition sum_pairs (pairs : list (pystr * pystr)) : result pynum :=
  foldl add_pair (Ok (PyInt 0)) pairs.

(** The same sum in exact integers, for pairs none of which is in
    milliseconds. *)
Definition int_multiplier (u : pystr) : Z :=
  match multiplier u with
  | PyInt k => k
  | PyFloat _ => 0
  end.

Definition exact_seconds (pairs : list (pystr * pystr)) : Z :=
  foldr (λ c acc, decimal_value c.1 * int_multiplier c.2 + acc)%Z 0%Z pairs.

End DurationGrammar.

(** ** The label index, for the statements *)

(** The label sets of the series with the extra labels of the caller merged
    in: an extra label takes the place of an engine label of the same
    name. *)
Definition with_extra_labels (metrics : list LabelSet) (labels : option LabelSet)
  : list LabelSet :=
  (λ m, default ∅ labels ∪ m) <$> metrics.

(** The value a series has for a level of the index: a label set carries
    the value of its reserved key ['__name__'] under the level
    ['metric_name'], in the place of a label of that name, and it has
    nothing under ['__name__']. *)
Definition level_value (m : LabelSet) (level : pystr) : option pystr :=
  if decide (level = str "__name__") then None
  else if decide (level = str "metric_name") then
    match m !! str "__name__" with
    | Some v => Some v
    | None => m !! str "metric_name"
    end
  else m !! level.

(** Python's order on [str]: by the first code point in which two strings
    differ, a prefix coming before its extensions. *)
Inductive str_le : pystr → pystr → Prop :=
| str_le_nil b : str_le [] b
| str_le_lt x y a b : (x < y)%N → str_le (x :: a) (y :: b)
| str_le_eq x a b : str_le a b → str_le (x :: a) (x :: b).

(** Two series, the second without a metric name. *)
Definition example_metrics : list LabelSet :=
  [ {[ str "__name__" := str "up"; str "job" := str "node" ]};
    {[ str "instance" := str "a" ]} ].

(** ** Observations on tables and traces *)

(** Column [j] of a data frame. *)
Definition df_column (df : DataFrame) (j : nat) : list float :=
  (λ row, default nan (row !! j)) <$> df_values df.

(** The columns of a data frame, each with its composite label key. *)
Definition df_items (df : DataFrame) : list (list (option pystr) * list float) :=
  imap (λ j key, (key, df_column df j)) (tuples (df_columns df)).

Definition is_get (ev : event) : bool :=
  match ev with EvGet _ => true | _ => false end.


(** ** An instance of the libraries, to evaluate the model

    Digits are the ASCII ones; a number is parsed when it is a decimal
    integer or [NaN]; a date is parsed when it is a decimal integer, taken
    as seconds since the epoch. *)

Definition ascii_decimal (c : N) : option Z :=
  if decide (48 ≤ c ≤ 57)%N then Some (Z.of_N c - 48)%Z else None.

Definition parse_nat (s : pystr) : result Z :=
  match s with
  | [] => Raise ValueError
  | _ => foldl (λ acc c, a ← acc;
                         match ascii_decimal c with
                         | Some v => Ok (10 * a + v)%Z
                         | None => Raise ValueError
                         end) (Ok 0%Z) s
  end.

Definition parse_float (s : pystr) : result float :=
  if decide (s = str "NaN") then Ok nan else float_of_Z <$> parse_nat s.

Definition ascii_externals : Externals := {|
  unicode_decimal := ascii_decimal;
  unicode_decimal_ascii := λ c _, eq_refl;
  unicode_decimal_range := ltac:(intros c v; unfold ascii_decimal;
                                 case_decide; intros [= <-]; lia);
  int_max_str_digits := 4300;
  int_max_str_digits_range := ltac:(right; lia);
  np_float64 := parse_float;
  datetime := Z;
  dtparser_parse := parse_nat;
  datetime_timestamp := λ d, Ok (float_of_Z d) |}.

(** An idealised parquet for the examples: a table is stored as the bytes
    of its numbers and strings, each list behind its length, and is read
    back from them; a file that does not parse is a ValueError. Numbers are
    written seven bits to a byte, least significant first, the eighth bit
    telling that more follow. *)
Module Codec.

Fixpoint put_bits (fuel : nat) (n : N) : list Z :=
  match fuel with
  | O => [Z.of_N (n mod 128)]
  | S fuel' =>
      if (n <? 128)%N then [Z.of_N n]
      else (128 + Z.of_N (n mod 128))%Z :: put_bits fuel' (n / 128)
  end.

Definition put_N (n : N) : list Z := put_bits (N.size_nat n) n.
Definition put_nat (n : nat) : list Z := put_N (N.of_nat n).

(** An integer as a natural number: the non-negative ones on the even
    numbers, the negative ones on the odd numbers. *)
Definition put_Z (z : Z) : list Z :=
  put_N (if (0 <=? z)%Z then Z.to_N (2 * z) else Z.to_N (- 2 * z - 1)).

Definition put_list {A} (put : A → list Z) (l : list A) : list Z :=
  put_nat (length l) ++ (l ≫= put).

Definition put_str (s : pystr) : list Z := put_list put_N s.

Definition put_option {A} (put : A → list Z) (x : option A) : list Z :=
  match x with
  | None => [0%Z]
  | Some a => 1%Z :: put a
  end.

Definition put_float (f : float) : list Z :=
  match f with
  | S754_zero s => [if s then 1 else 0]%Z
  | S754_infinity s => [if s then 3 else 2]%Z
  | S754_nan => [4%Z]
  | S754_finite s m e => (if s then 6 else 5)%Z :: put_N (N.pos m) ++ put_Z e
  end.

Definition put_table (df : DataFrame) : list Z :=
  put_list (put_list put_float) (df_values df)
  ++ put_list put_str (names (df_columns df))
  ++ put_list (put_list (put_option put_str)) (tuples (df_columns df))
  ++ put_list put_float (df_index df).

(** A parser takes what it reads from the front of the bytes. *)
Definition parser (A : Type) : Type := list Z → option (A * list Z).

Fixpoint get_N (bs : list Z) : option (N * list Z) :=
  match bs with
  | [] => None
  | b :: bs' =>
      if (b <? 128)%Z then Some (Z.to_N b, bs')
      else '(n, rest) ← get_N bs'; Some ((Z.to_N (b - 128) + 128 * n)%N, rest)
  end.

Definition get_nat : parser nat := λ bs, '(n, rest) ← get_N bs; Some (N.to_nat n, rest).

Definition get_Z : parser Z := λ bs,
  '(n, rest) ← get_N bs;
  Some (if N.even n then (Z.of_N n / 2)%Z else (- ((Z.of_N n + 1) / 2))%Z, rest).

Fixpoint get_many {A} (get : parser A) (count : nat) : parser (list A) := λ bs,
  match count with
  | O => Some ([], bs)
  | S count' =>
      '(x, rest) ← get bs; '(xs, rest') ← get_many get count' rest; Some (x :: xs, rest')
  end.

Definition get_list {A} (get : parser A) : parser (list A) := λ bs,
  '(count, rest) ← get_nat bs;
  if decide (count ≤ length rest) then get_many get count rest else None.

Definition get_str : parser pystr := get_list get_N.

Definition get_option {A} (get : parser A) : parser (option A) := λ bs,
  match bs with
  | 0%Z :: rest => Some (None, rest)
  | 1%Z :: rest => '(x, rest') ← get rest; Some (Some x, rest')
  | _ => None
  end.

Definition get_float : parser float := λ bs,
  match bs with
  | 0%Z :: rest => Some (S754_zero false, rest)
  | 1%Z :: rest => Some (S754_zero true, rest)
  | 2%Z :: rest => Some (S754_infinity false, rest)
  | 3%Z :: rest => Some (S754_infinity true, rest)
  | 4%Z :: rest => Some (S754_nan, rest)
  | tag :: rest =>
      if bool_decide (tag = 5 ∨ tag = 6)%Z then
        '(m, rest1) ← get_N rest;
        '(e, rest2) ← get_Z rest1;
        match m with
        | N0 => None
        | Npos m => Some (S754_finite (bool_decide (tag = 6%Z)) m e, rest2)
        end
      else None
  | [] => None
  end.

Definition get_table : parser DataFrame := λ bs,
  '(values, rest1) ← get_list (get_list get_float) bs;
  '(names, rest2) ← get_list get_str rest1;
  '(tuples, rest3) ← get_list (get_list (get_option get_str)) rest2;
  '(index, rest4) ← get_list get_float rest3;
  Some ({| df_values := values;
           df_columns := {| names := names; tuples := tuples |};
           df_index := index |}, rest4).

End Codec.

Definition example_parquet : Parquet := {|
  parquet_write := λ df, Ok (Codec.put_table df);
  parquet_read := λ bytes,
    match Codec.get_table bytes with
    | Some (df, []) => Ok df
    | _ => Raise ValueError
    end |}.

(** Float literals for the examples. *)
Definition f0 : float := float_of_Z 0.
Definition f5 : float := float_of_Z 5.
Definition f10 : float := float_of_Z 10.
Definition f2_5 : float := fdiv (float_of_Z 5) (float_of_Z 2).
Definition f5_4 : float := fdiv (float_of_Z 54) (float_of_Z 10).
Definition f0_0625 : float := fdiv (float_of_Z 1) (float_of_Z 16).

(** A server that answers every instant query with a vector of two series
    and every range query with a matrix of two series. *)
Definition example_vector : prom_data :=
  DataVector
    [ {| vs_metric := {[ str "__name__" := str "up"; str "job" := str "node" ]};
         vs_value := (f10, str "1") |};
      {| vs_metric := {[ str "__name__" := str "up"; str "job" := str "api" ]};
         vs_value := (f10, str "0") |} ].

Definition example_matrix : prom_data :=
  DataMatrix
    [ {| ms_metric := {[ str "__name__" := str "up"; str "job" := str "node" ]};
         ms_values := [(f0, str "1"); (f5, str "2"); (f10, str "3")] |};
      {| ms_metric := {[ str "__name__" := str "up"; str "job" := str "api" ]};
         ms_values := [(f5, str "7")] |} ].

Definition example_transport : Transport := {|
  http_get := λ req,
    Ok {| status_code := 200; status := str "success";
          data := if decide (req_path req = str "api/v1/query") then example_vector
                  else example_matrix |} |}.

Definition example_client : Prometheus :=
  {| api_url := str "http://localhost:9090/"; headers := None;
     _cache_path := Some [str "cache"] |}.

Definition example_uncached_client : Prometheus :=
  {| api_url := str "http://localhost:9090/"; headers := None; _cache_path := None |}.

Definition empty_world : world := {| fs := ∅; trace := [] |}.

Definition f15 : float := float_of_Z 15.
Definition f_minus_5 : float := float_of_Z (-5).

Definition one_sample_series (t : float) : matrix_series :=
  {| ms_metric := {[ str "job" := str "node" ]}; ms_values := [(t, str "7")] |}.

Definition one_sample (t : float) : list matrix_series := [one_sample_series t].

(** The buffer of a materialization. *)
Definition buffer {A B C} (r : result (A * B * C)) : result A := (λ x, x.1.1) <$> r.

(** The level under which a label name appears in the index. *)
Definition level_of (name : pystr) : pystr :=
  if decide (name = str "__name__") then str "metric_name" else name.

Definition example_labels : LabelSet := {[ str "__name__" := str "x" ]}.

(** The composite index of a table. *)
Definition pandas_index (table : pandas) : option MultiIndex :=
  match table with
  | PdMatrix df => Some (df_columns df)
  | PdVector s => Some (series_index s)
  | PdScalar _ | PdString _ => None
  end.

(** The label sets the query engine produced, in the order in which
    [_to_pandas] materializes the series. *)
Definition engine_metrics (results : prom_data) (sort : option (LabelSet → Z))
  : list LabelSet :=
  match results with
  | DataVector r =>
      vs_metric <$> match sort with Some f => sorted_by_metric vs_metric f r | None => r end
  | DataMatrix r =>
      ms_metric <$> match sort with Some f => sorted_by_metric ms_metric f r | None => r end
  | DataScalar _ | DataString _ | DataOther _ => []
  end.

Definition example_query : pystr := str "up".
Definition example_env : LabelSet := {[ str "env" := str "prod" ]}.

(** The levels of the table a query returned. *)
Definition table_levels (outcome : result pandas * world) : option (list pystr) :=
  match outcome.1 with
  | Ok table => names <$> pandas_index table
  | Raise _ => None
  end.

(** Runs of the example client against the example server. *)
Definition run_range (self : Prometheus) (labels : option LabelSet)
    (sort : option (LabelSet → Z)) (w : world) : result pandas * world :=
  @query_range ascii_externals example_transport example_parquet self example_query
    (TsFloat f0) (TsFloat f10) (DInt 5) labels None sort false w.

Definition run_instant (labels : option LabelSet) (sort : option (LabelSet → Z))
  : result pandas * world :=
  @query ascii_externals example_transport example_uncached_client example_query
    labels None None sort empty_world.

(** The events a program emits all satisfy [P]. *)
Definition emits {A} (P : event → Prop) (m : Prog A) : Prop :=
  ∀ w, ∃ evs, trace (m w).2 = trace w ++ evs ∧ Forall P evs.

(** A program that does not contact the transport. *)
Definition offline (ev : event) : Prop := is_get ev = false.



(** The world after a first range query of the caching example client. *)
Definition cached_world : world := (run_range example_client None None empty_world).2.



(** Range queries of the caching example client: one with a forced flush,
    one with a step that is not a duration, and one with other times and
    extra labels. *)
Definition run_range_flush (w : world) : result pandas * world :=
  @query_range ascii_externals example_transport example_parquet example_client example_query
    (TsFloat f0) (TsFloat f10) (DInt 5) None None None true w.

Definition run_range_bad_step (w : world) : result pandas * world :=
  @query_range ascii_externals example_transport example_parquet example_client example_query
    (TsFloat f0) (TsFloat f10) (DStr (str "abc")) None None None false w.

Definition run_range_other (w : world) : result pandas * world :=
  @query_range ascii_externals example_transport example_parquet example_client example_query
    (TsFloat f5) (TsFloat f15) (DStr (str "1m")) (Some example_env) None None false w.

(** A sort key: the first character of the [job] label. *)
Definition by_job (m : LabelSet) : Z :=
  match m !! str "job" with
  | Some (c :: _) => Z.of_N c
  | _ => 0%Z
  end.

(** The duration of 10 ^ 309 milliseconds: a 1, 309 zeros and the unit. *)
Definition overflow_text : pystr := str "1" ++ replicate 309 48%N ++ str "ms".

(** A duration of 4301 digits, one more than [int] converts by default:
    4301 times the digit 1, and the unit. *)
Definition long_text : pystr := replicate 4301 49%N ++ str "s".

(** * Properties *)

(** ** Results *)

Lemma bind_Ok {A B} (a : A) (f : A → result B) : (Ok a ≫= f) = f a.
Proof. reflexivity. Qed.

Lemma bind_Raise {A B} (e : exn) (f : A → result B) : (Raise e ≫= f) = Raise e.
Proof. reflexivity. Qed.

Lemma bind_Ok_inv {A B} (r : result A) (f : A → result B) (b : B) :
  r ≫= f = Ok b → ∃ a, r = Ok a ∧ f a = Ok b.
Proof. destruct r as [a|e]; [eauto|done]. Qed.

Lemma fmap_Ok_inv {A B} (r : result A) (f : A → B) (b : B) :
  f <$> r = Ok b → ∃ a, r = Ok a ∧ b = f a.
Proof. destruct r as [a|e]; [intros [= <-]; eauto|done]. Qed.

(** ** Rounding to the nearest integer *)

Section Rounding.
Local Open Scope Z_scope.

Lemma round_half_even_nearest n d : 0 < d → nearest_even n d (round_half_even n d).
Proof.
  intros Hd. unfold nearest_even, nearest, halfway, round_half_even.
  pose proof (Z.div_mod n d ltac:(lia)) as Hdm.
  pose proof (Z.mod_pos_bound n d Hd) as Hr.
  destruct (2 * (n mod d) <? d) eqn:E1; [apply Z.ltb_lt in E1|apply Z.ltb_ge in E1].
  { split; [nia|intros HH; nia]. }
  destruct (d <? 2 * (n mod d)) eqn:E2; [apply Z.ltb_lt in E2|apply Z.ltb_ge in E2].
  { split; [nia|intros HH; nia]. }
  destruct (Z.even (n / d)) eqn:E3.
  { split; [nia|done]. }
  split; [nia|]. intros _. rewrite Z.even_add, E3. reflexivity.
Qed.

(** The rule determines the result. *)
Lemma nearest_even_unique n d r1 r2 :
  0 < d → nearest_even n d r1 → nearest_even n d r2 → r1 = r2.
Proof.
  unfold nearest_even, nearest, halfway. intros Hd [H1 E1] [H2 E2].
  destruct (decide (r1 = r2)) as [|Hne]; [done|exfalso].
  assert (r1 = r2 + 1 ∨ r2 = r1 + 1) as Hadj by nia.
  assert (2 * Z.abs (r1 * d - n) = d) as T1 by nia.
  assert (2 * Z.abs (r2 * d - n) = d) as T2 by nia.
  specialize (E1 T1). specialize (E2 T2).
  destruct Hadj as [Ha | Ha]; subst; rewrite Z.even_add in *; simpl in *;
    match goal with H : Z.even ?x = true |- _ => rewrite H in * end;
    simpl in *; congruence.
Qed.

Lemma float_ratio_pos f n d : float_ratio f = Some (n, d) → 0 < d.
Proof.
  destruct f as [s|s| |s m e]; simpl; try done.
  - intros [= <- <-]. lia.
  - destruct (0 <=? e) eqn:E; intros [= <- <-]; [lia|].
    apply Z.leb_gt in E. apply Z.pow_pos_nonneg; lia.
Qed.

Lemma rint_nearest_even f n d :
  float_ratio f = Some (n, d) → ∃ r, rint f = Some r ∧ nearest_even n d r.
Proof.
  intros Hf. pose proof (float_ratio_pos _ _ _ Hf) as Hd.
  destruct f as [s|s| |s m e]; simpl in *; try done.
  - injection Hf as <- <-. exists 0. split; [done|].
    unfold nearest_even, nearest, halfway. split; [lia|done].
  - destruct (0 <=? e) eqn:E; injection Hf as <- <-.
    + eexists; split; [done|]. unfold nearest_even, nearest, halfway. split; lia.
    + eexists; split; [done|]. by apply round_half_even_nearest.
Qed.

End Rounding.

(** ** Time Normalizer: milliseconds *)

Section Millis.
Context {ext : Externals}.

(** C8, as amended: for a timestamp that normalises to [t], [ts_to_ms] is
    the integer nearest to the binary64 product [t * 1000], and when the
    product is halfway between two integers it is the even one (Python's
    [round]), not the larger one. *)
Theorem ts_to_ms_rounds_half_even (ts : Timestamp) (t : float) (n d : Z) :
  to_ts ts = Ok t →
  float_ratio (fmul t (float_of_Z 1000)) = Some (n, d) →
  ∃ r, ts_to_ms ts = Ok r ∧ nearest_even n d r.
Proof.
  intros Hts Hx. unfold ts_to_ms. rewrite Hts, bind_Ok.
  destruct (rint_nearest_even _ _ _ Hx) as (r & Hr & Hne).
  exists r. split; [|done].
  unfold py_round. rewrite Hr.
  by destruct (fmul t (float_of_Z 1000)).
Qed.

End Millis.

(** A timestamp of 0.0625 s is 62.5 ms: [ts_to_ms] gives 62, rounding
    half-up gives 63. *)
Lemma ts_to_ms_not_half_up :
  float_ratio (fmul f0_0625 (float_of_Z 1000)) = Some (125 * 2 ^ 46, 2 * 2 ^ 46)%Z ∧
  @ts_to_ms ascii_externals (TsFloat f0_0625) = Ok 62%Z ∧
  @to_millis_half_up ascii_externals (TsFloat f0_0625) = Ok 63%Z ∧
  @ts_to_ms ascii_externals (TsFloat f0_0625)
    ≠ @to_millis_half_up ascii_externals (TsFloat f0_0625).
Proof. vm_compute. split; [reflexivity|split; [reflexivity|split; [reflexivity|discriminate]]]. Qed.

Lemma ts_to_ms_rounds_half_even_witness :
  ∃ r, @ts_to_ms ascii_externals (TsFloat f0_0625) = Ok r
       ∧ nearest_even (125 * 2 ^ 46) (2 * 2 ^ 46) r.
Proof.
  apply (@ts_to_ms_rounds_half_even ascii_externals (TsFloat f0_0625) f0_0625);
    vm_compute; reflexivity.
Defined.

(** ** Comprehensions that may raise *)

Lemma mapR_Ok_length {A B} (f : A → result B) l ys :
  mapR f l = Ok ys → length ys = length l.
Proof.
  revert ys. induction l as [|x l IH]; intros ys; simpl.
  - by intros [= <-].
  - intros H. apply bind_Ok_inv in H as (y & Hy & H).
    apply bind_Ok_inv in H as (ys' & Hys & [= <-]). simpl. f_equal. by apply IH.
Qed.

Lemma mapR_Ok_lookup {A B} (f : A → result B) l ys i x :
  mapR f l = Ok ys → l !! i = Some x → ∃ y, ys !! i = Some y ∧ f x = Ok y.
Proof.
  revert ys i. induction l as [|x0 l IH]; intros ys i; simpl; [done|].
  intros H. apply bind_Ok_inv in H as (y & Hy & H).
  apply bind_Ok_inv in H as (ys' & Hys & [= <-]).
  destruct i as [|i]; simpl.
  - intros [= ->]. eauto.
  - intros Hi. by apply IH.
Qed.

Lemma mapR_fmap {A B C} (f : B → result C) (g : A → B) l :
  mapR f (g <$> l) = mapR (f ∘ g) l.
Proof. induction l as [|x l IH]; csimpl; [done|]. by rewrite IH. Qed.

(** ** Assignment through an index array *)

(** Turn boolean comparisons on integers among the hypotheses into
    propositions. *)
Ltac zbool :=
  repeat match goal with
  | H : (_ && _)%bool = true |- _ => apply andb_true_iff in H; destruct H
  | H : (_ && _)%bool = false |- _ => apply andb_false_iff in H; destruct H
  | H : (_ || _)%bool = true |- _ => apply orb_true_iff in H; destruct H
  | H : (_ || _)%bool = false |- _ => apply orb_false_iff in H; destruct H
  | H : (_ <=? _)%Z = true |- _ => apply Z.leb_le in H
  | H : (_ <=? _)%Z = false |- _ => apply Z.leb_gt in H
  | H : (_ <? _)%Z = true |- _ => apply Z.ltb_lt in H
  | H : (_ <? _)%Z = false |- _ => apply Z.ltb_ge in H
  end.

Section FancyIndexing.
Implicit Types (row : list float) (jvs : list (nat * float)).

Lemma store_all_length row jvs : length (store_all row jvs) = length row.
Proof.
  revert row. induction jvs as [|jv jvs IH]; intros row; simpl; [done|].
  unfold store_all in *. simpl. by rewrite IH, length_insert.
Qed.

Lemma store_all_untouched row jvs pos :
  (∀ k jv, jvs !! k = Some jv → jv.1 ≠ pos) →
  store_all row jvs !! pos = row !! pos.
Proof.
  revert row. induction jvs as [|jv jvs IH]; intros row Hno; [done|].
  unfold store_all in *. simpl. rewrite IH.
  - apply list_lookup_insert_ne. by apply (Hno 0).
  - intros k jv' Hk. by apply (Hno (S k)).
Qed.

(** Of the stores to one position, the last one stays. *)
Lemma store_all_last row jvs k pos x :
  jvs !! k = Some (pos, x) →
  pos < length row →
  (∀ k' jv, k < k' → jvs !! k' = Some jv → jv.1 ≠ pos) →
  store_all row jvs !! pos = Some x.
Proof.
  revert row k. induction jvs as [|jv jvs IH]; intros row k Hk Hpos Hlast; [done|].
  unfold store_all in *. simpl. destruct k as [|k]; simpl in Hk.
  - injection Hk as ->. simpl.
    fold (store_all (<[pos:=x]> row) jvs). rewrite store_all_untouched.
    + by apply list_lookup_insert_eq.
    + intros k' jv' Hk'. apply (Hlast (S k')); [lia|done].
  - apply (IH _ k); [done|by rewrite length_insert|].
    intros k' jv' Hlt Hk'. apply (Hlast (S k')); [lia|done].
Qed.

Lemma normalize_index_lt n i pos : normalize_index n i = Ok pos → pos < n.
Proof.
  unfold normalize_index. intros H.
  repeat case_match; simplify_eq; zbool; lia.
Qed.

Lemma normalize_index_in_range n i :
  (0 ≤ i < Z.of_nat n)%Z → normalize_index n i = Ok (Z.to_nat i).
Proof.
  intros Hi. unfold normalize_index.
  repeat case_match; try done; zbool; lia.
Qed.

Lemma normalize_index_negative n i :
  (- Z.of_nat n ≤ i < 0)%Z → normalize_index n i = Ok (Z.to_nat (i + Z.of_nat n)).
Proof.
  intros Hi. unfold normalize_index.
  repeat case_match; try done; zbool; lia.
Qed.

Lemma normalize_index_outside n i :
  (i < - Z.of_nat n ∨ Z.of_nat n ≤ i)%Z → normalize_index n i = Raise IndexError.
Proof.
  intros Hi. unfold normalize_index.
  repeat case_match; try done; zbool; lia.
Qed.

Lemma setitem_fancy_length row inds vals row' :
  setitem_fancy row inds vals = Ok row' → length row' = length row.
Proof.
  unfold setitem_fancy. intros H. apply bind_Ok_inv in H as (js & _ & [= <-]).
  apply store_all_length.
Qed.

Lemma setitem_fancy_checked row inds vals row' j i :
  setitem_fancy row inds vals = Ok row' → inds !! j = Some i →
  ∃ pos, normalize_index (length row) i = Ok pos.
Proof.
  unfold setitem_fancy. intros H Hj. apply bind_Ok_inv in H as (js & Hjs & _).
  destruct (mapR_Ok_lookup _ _ _ _ _ Hjs Hj) as (pos & _ & Hpos). eauto.
Qed.

Lemma setitem_fancy_last row inds vals row' j i x pos :
  setitem_fancy row inds vals = Ok row' →
  inds !! j = Some i → vals !! j = Some x →
  normalize_index (length row) i = Ok pos →
  (∀ j' i', j < j' → inds !! j' = Some i' → normalize_index (length row) i' ≠ Ok pos) →
  row' !! pos = Some x.
Proof.
  unfold setitem_fancy. intros H Hi Hx Hpos Hlast.
  apply bind_Ok_inv in H as (js & Hjs & [= <-]).
  destruct (mapR_Ok_lookup _ _ _ _ _ Hjs Hi) as (pos' & Hj & Hpos').
  assert (pos' = pos) as -> by congruence.
  apply (store_all_last _ _ j).
  - apply lookup_zip_with_Some. eauto.
  - by eapply normalize_index_lt.
  - intros j' [p' x'] Hlt Hj'. simpl.
    apply lookup_zip_with_Some in Hj' as (p'' & x'' & [= <- <-] & Hp' & _).
    intros ->.
    assert (j' < length inds) as Hlen.
    { rewrite <- (mapR_Ok_length _ _ _ Hjs). by eapply lookup_lt_Some. }
    destruct (lookup_lt_is_Some_2 _ _ Hlen) as [i' Hi'].
    destruct (mapR_Ok_lookup _ _ _ _ _ Hjs Hi') as (p2 & Hp2 & Hn2).
    assert (p2 = pos) as -> by congruence.
    by apply (Hlast j' i').
Qed.

End FancyIndexing.

(** ** Matrix Materializer *)

Section MatrixMaterializer.
Context {ext : Externals}.

Lemma matrix_loop_step start step ii t rest data metrics row :
  data !! ii = Some row →
  matrix_loop start step ii (t :: rest) data metrics =
    row' ← series_row start step row t;
    matrix_loop start step (S ii) rest (<[ii := row']> data) (metrics ++ [ms_metric t]).
Proof.
  intros Hrow. simpl. unfold series_row, setitem_row. rewrite Hrow.
  destruct (unzip_values (ms_values t)) as [[ts vs]|e]; simpl; [|done].
  destruct (mapR np_float64 vs) as [vals|e]; simpl; [|done].
  by destruct (setitem_fancy row _ vals).
Qed.

Lemma matrix_loop_no_row start step ii t rest data metrics :
  data !! ii = None →
  ∃ e, matrix_loop start step ii (t :: rest) data metrics = Raise e.
Proof.
  intros Hrow. simpl. unfold setitem_row. rewrite Hrow.
  destruct (unzip_values (ms_values t)) as [[ts vs]|e]; simpl; [|by eauto].
  destruct (mapR np_float64 vs) as [vals|e]; simpl; by eauto.
Qed.

(** The loop leaves the shape of the buffer alone, appends the label sets in
    order, and stores into row [ii + k] what series [k] holds. *)
Lemma matrix_loop_Ok start step results : ∀ ii data metrics data' metrics',
  matrix_loop start step ii results data metrics = Ok (data', metrics') →
  length data' = length data ∧
  metrics' = metrics ++ (ms_metric <$> results) ∧
  (∀ k, k < ii → data' !! k = data !! k) ∧
  (∀ k series row, results !! k = Some series → data !! (ii + k) = Some row →
     ∃ row', series_row start step row series = Ok row' ∧ data' !! (ii + k) = Some row').
Proof.
  induction results as [|t rest IH]; intros ii data metrics data' metrics' H.
  - simpl in H. injection H as <- <-. rewrite app_nil_r. repeat split; done.
  - destruct (data !! ii) as [row0|] eqn:Hrow0.
    2: { destruct (matrix_loop_no_row start step ii t rest data metrics Hrow0) as [e He].
         congruence. }
    rewrite (matrix_loop_step _ _ _ _ _ _ _ _ Hrow0) in H.
    apply bind_Ok_inv in H as (row1 & Hrow1 & H).
    apply IH in H as (Hlen & Hm & Hlow & Hrows).
    rewrite length_insert in Hlen. split; [done|]. split.
    { rewrite Hm, fmap_cons, <- app_assoc. done. } split.
    { intros k Hk. rewrite Hlow by lia. apply list_lookup_insert_ne. lia. }
    intros k series row Hk Hrow. destruct k as [|k]; simpl in Hk.
    + injection Hk as <-. rewrite Nat.add_0_r in *.
      assert (row = row0) as -> by congruence.
      exists row1. split; [done|]. rewrite Hlow by lia.
      apply list_lookup_insert_eq. by eapply lookup_lt_Some.
    + replace (ii + S k) with (S ii + k) in * by lia.
      apply (Hrows k series row Hk). rewrite list_lookup_insert_ne by lia. done.
Qed.

Lemma np_arange_length start stop step times :
  np_arange start stop step = Ok times → arange_len start stop step = Ok (length times).
Proof.
  unfold np_arange. intros H. apply bind_Ok_inv in H as (n & Hn & [= <-]).
  by rewrite length_fmap, length_seq.
Qed.

(** On success, row [ii] of the buffer is the row of NaN with the samples
    of series [ii] stored into it. *)
Lemma matrix_to_numpy_row results start end_ step data metrics times ii series :
  _matrix_to_numpy results start end_ step = Ok (data, metrics, times) →
  results !! ii = Some series →
  ∃ row, series_row start step (replicate (length times) nan) series = Ok row
         ∧ data !! ii = Some row ∧ length row = length times.
Proof.
  unfold _matrix_to_numpy. intros H Hii.
  apply bind_Ok_inv in H as (times' & Htimes & H).
  apply bind_Ok_inv in H as ([data' metrics'] & Hloop & [= <- <- <-]).
  apply matrix_loop_Ok in Hloop as (_ & _ & _ & Hrows).
  destruct (Hrows ii series (replicate (length times') nan) Hii) as (row & Hrow & Hdata).
  { simpl. apply lookup_replicate_2. by eapply lookup_lt_Some. }
  exists row. repeat split; [done|done|].
  unfold series_row in Hrow.
  apply bind_Ok_inv in Hrow as ([ts vs] & _ & Hrow).
  apply bind_Ok_inv in Hrow as (vals & _ & Hrow).
  apply setitem_fancy_length in Hrow. by rewrite Hrow, length_replicate.
Qed.

Lemma series_row_checked start step row series row' j t v :
  series_row start step row series = Ok row' →
  ms_values series !! j = Some (t, v) →
  ∃ pos x, position (length row) start step t = Ok pos ∧ np_float64 v = Ok x.
Proof.
  unfold series_row, unzip_values. intros H Hj.
  destruct (ms_values series) as [|tv0 tvs] eqn:Hvals; [done|]. rewrite <- Hvals in *.
  rewrite bind_Ok in H.
  apply bind_Ok_inv in H as (vals & Hvals' & H).
  assert ((slot start step <$> (fst <$> ms_values series)) !! j = Some (slot start step t)) as Hslot.
  { by rewrite !list_lookup_fmap, Hj. }
  destruct (setitem_fancy_checked _ _ _ _ _ _ H Hslot) as (pos & Hpos).
  assert ((snd <$> ms_values series) !! j = Some v) as Hv.
  { by rewrite list_lookup_fmap, Hj. }
  destruct (mapR_Ok_lookup _ _ _ _ _ Hvals' Hv) as (x & _ & Hx).
  exists pos, x. done.
Qed.

(** A sample is found at its position unless a later sample of the series
    has the same position. *)
Lemma series_row_last start step row series row' j t v pos :
  series_row start step row series = Ok row' →
  ms_values series !! j = Some (t, v) →
  position (length row) start step t = Ok pos →
  (∀ j' t' v', j < j' → ms_values series !! j' = Some (t', v') →
               position (length row) start step t' ≠ Ok pos) →
  ∃ x, np_float64 v = Ok x ∧ row' !! pos = Some x.
Proof.
  unfold series_row, unzip_values. intros H Hj Hpos Hlast.
  destruct (ms_values series) as [|tv0 tvs] eqn:Hvals; [done|]. rewrite <- Hvals in *.
  rewrite bind_Ok in H.
  apply bind_Ok_inv in H as (vals & Hvals' & H).
  assert ((snd <$> ms_values series) !! j = Some v) as Hv.
  { by rewrite list_lookup_fmap, Hj. }
  destruct (mapR_Ok_lookup _ _ _ _ _ Hvals' Hv) as (x & Hx & Hparse).
  exists x. split; [done|].
  eapply (setitem_fancy_last _ _ _ _ j); [exact H| |exact Hx|exact Hpos|].
  - by rewrite !list_lookup_fmap, Hj.
  - intros j' i' Hlt Hj'. rewrite !list_lookup_fmap in Hj'.
    destruct (ms_values series !! j') as [[t' v']|] eqn:Hj''; [|done].
    injection Hj' as <-. by apply (Hlast j' t' v').
Qed.

(** A slot that is not negative is the rounded quotient itself. *)
Lemma slot_nonneg_nearest_even start step t :
  (0 ≤ slot start step t)%Z →
  ∃ n d, float_ratio (fdiv (fsub t start) step) = Some (n, d)
         ∧ nearest_even n d (slot start step t).
Proof.
  unfold slot, rint_int64. intros Hs.
  destruct (float_ratio (fdiv (fsub t start) step)) as [[n d]|] eqn:Hq.
  - destruct (rint_nearest_even _ _ _ Hq) as (r & Hr & Hne).
    rewrite Hr in *. exists n, d. split; [done|].
    case_match; [done|]. unfold INT64_MIN in Hs. lia.
  - exfalso. destruct (fdiv (fsub t start) step); simpl in *; try done;
      unfold INT64_MIN in Hs; lia.
Qed.

(** C1, as amended: when materialization succeeds, a sample [(t, v)] of
    series [ii] whose slot lies in the grid, and is not taken again by a
    later sample of the series, has its parsed value at
    [data[ii][slot]]; the slot is the integer nearest to the binary64
    quotient [(t - start) / step], the even one when the quotient is
    halfway between two integers ([np.rint]), not the one away from zero.
    A sample at 5.4 with start 0 and step 5 has slot 1. *)
Theorem matrix_sample_in_slot results start end_ step data metrics times ii series j t v :
  _matrix_to_numpy results start end_ step = Ok (data, metrics, times) →
  results !! ii = Some series →
  ms_values series !! j = Some (t, v) →
  (0 ≤ slot start step t < Z.of_nat (length times))%Z →
  (∀ j' t' v', j < j' → ms_values series !! j' = Some (t', v') →
     position (length times) start step t' ≠ Ok (Z.to_nat (slot start step t))) →
  (∃ n d, float_ratio (fdiv (fsub t start) step) = Some (n, d)
          ∧ nearest_even n d (slot start step t))
  ∧ (∃ x row, np_float64 v = Ok x ∧ data !! ii = Some row
              ∧ row !! Z.to_nat (slot start step t) = Some x)
  ∧ slot f0 f5 f5_4 = 1%Z.
Proof.
  intros Hok Hii Hj Hslot Hlast. split; [|split].
  - apply slot_nonneg_nearest_even. lia.
  - destruct (matrix_to_numpy_row _ _ _ _ _ _ _ _ _ Hok Hii) as (row & Hrow & Hdata & Hlen).
    destruct (series_row_last _ _ _ _ _ j t v (Z.to_nat (slot start step t)) Hrow Hj)
      as (x & Hx & Hcell).
    + unfold position. rewrite length_replicate. by apply normalize_index_in_range.
    + intros j' t' v'. rewrite length_replicate. apply Hlast.
    + exists x, row. done.
  - by vm_compute.
Qed.

(** C2, as amended: a sample whose slot is at least the grid length, or
    below its negation, makes materialization fail; a sample whose slot
    [s] is negative but not below the negated grid length is not dropped
    either: unless a later sample of the series takes the same position,
    its value is found at [s + grid_length], counted from the end of the
    row as numpy does. In no case is a row of the buffer longer than the
    grid. *)
Theorem matrix_sample_out_of_grid results start end_ step n ii series j t v :
  arange_len start (fadd end_ f_1e_6) step = Ok n →
  results !! ii = Some series →
  ms_values series !! j = Some (t, v) →
  let s := slot start step t in
  ((s < - Z.of_nat n ∨ Z.of_nat n ≤ s)%Z →
     ∃ e, _matrix_to_numpy results start end_ step = Raise e)
  ∧ (∀ data metrics times,
       _matrix_to_numpy results start end_ step = Ok (data, metrics, times) →
       length times = n
       ∧ (∀ row, row ∈ data → length row = n)
       ∧ ((- Z.of_nat n ≤ s < 0)%Z →
          (∀ j' t' v', j < j' → ms_values series !! j' = Some (t', v') →
             position n start step t' ≠ Ok (Z.to_nat (s + Z.of_nat n))) →
          ∃ x row, np_float64 v = Ok x ∧ data !! ii = Some row
                   ∧ row !! Z.to_nat (s + Z.of_nat n) = Some x)).
Proof.
  intros Hn Hii Hj s.
  assert (∀ data metrics times,
            _matrix_to_numpy results start end_ step = Ok (data, metrics, times) →
            length times = n) as Hgrid.
  { intros data metrics times Hok. unfold _matrix_to_numpy in Hok.
    apply bind_Ok_inv in Hok as (times' & Htimes & Hok).
    apply bind_Ok_inv in Hok as ([data' metrics'] & _ & [= <- <- <-]).
    apply np_arange_length in Htimes. congruence. }
  split.
  - intros Hout.
    destruct (_matrix_to_numpy results start end_ step) as [[[data metrics] times]|e] eqn:Hok;
      [exfalso|by eauto].
    pose proof (Hgrid _ _ _ eq_refl) as Hlen.
    destruct (matrix_to_numpy_row _ _ _ _ _ _ _ _ _ Hok Hii) as (row & Hrow & _).
    destruct (series_row_checked _ _ _ _ _ _ _ _ Hrow Hj) as (pos & x & Hpos & _).
    unfold position in Hpos. rewrite length_replicate, Hlen in Hpos.
    rewrite normalize_index_outside in Hpos; done.
  - intros data metrics times Hok. pose proof (Hgrid _ _ _ Hok) as Hlen.
    split; [done|]. split.
    + intros row Hin. apply list_elem_of_lookup in Hin as [k Hk].
      unfold _matrix_to_numpy in Hok.
      apply bind_Ok_inv in Hok as (times' & Htimes & Hok).
      apply bind_Ok_inv in Hok as ([data' metrics'] & Hloop & [= <- <- <-]).
      pose proof (matrix_loop_Ok _ _ _ _ _ _ _ _ Hloop) as (Hlen' & _ & _ & Hrows).
      rewrite length_replicate in Hlen'.
      assert (k < length results) as Hlt.
      { rewrite <- Hlen'. by eapply lookup_lt_Some. }
      destruct (lookup_lt_is_Some_2 _ _ Hlt) as [series' Hser].
      destruct (Hrows k series' (replicate (length times') nan) Hser) as (row' & Hrow' & Hd).
      { simpl. by apply lookup_replicate_2. }
      simpl in Hd. assert (row' = row) as -> by congruence.
      unfold series_row in Hrow'.
      apply bind_Ok_inv in Hrow' as ([ts vs] & _ & Hrow').
      apply bind_Ok_inv in Hrow' as (vals & _ & Hrow').
      apply setitem_fancy_length in Hrow'. by rewrite Hrow', length_replicate.
    + intros Hneg Hlast.
      destruct (matrix_to_numpy_row _ _ _ _ _ _ _ _ _ Hok Hii) as (row & Hrow & Hdata & _).
      destruct (series_row_last _ _ _ _ _ j t v (Z.to_nat (s + Z.of_nat n)) Hrow Hj)
        as (x & Hx & Hcell).
      * unfold position. rewrite length_replicate, Hlen. by apply normalize_index_negative.
      * intros j' t' v'. rewrite length_replicate, Hlen. apply Hlast.
      * exists x, row. done.
Qed.

End MatrixMaterializer.

(** A sample at 2.5 with start 0 and step 5 is halfway between slots 0 and
    1: the code stores it in slot 0, the rule of the spec names slot 1. *)
Lemma matrix_tie_slot_not_away_from_zero :
  float_ratio (fdiv (fsub f2_5 f0) f5) = Some (2 ^ 52, 2 * 2 ^ 52)%Z
  ∧ slot f0 f5 f2_5 = 0%Z
  ∧ slot_half_away f0 f5 f2_5 = Some 1%Z
  ∧ Some (slot f0 f5 f2_5) ≠ slot_half_away f0 f5 f2_5
  ∧ buffer (@_matrix_to_numpy ascii_externals (one_sample f2_5) f0 f10 f5)
    = Ok [[float_of_Z 7; nan; nan]].
Proof.
  vm_compute.
  split; [reflexivity|split; [reflexivity|split; [reflexivity|split; [discriminate|reflexivity]]]].
Qed.

Lemma matrix_sample_in_slot_witness :
  buffer (@_matrix_to_numpy ascii_externals (one_sample f5_4) f0 f10 f5)
    = Ok [[nan; float_of_Z 7; nan]]
  ∧ (∃ n d, float_ratio (fdiv (fsub f5_4 f0) f5) = Some (n, d)
            ∧ nearest_even n d (slot f0 f5 f5_4))
  ∧ (∃ x row, parse_float (str "7") = Ok x ∧ [[nan; float_of_Z 7; nan]] !! 0 = Some row
              ∧ row !! Z.to_nat (slot f0 f5 f5_4) = Some x)
  ∧ slot f0 f5 f5_4 = 1%Z.
Proof.
  split; [by vm_compute|].
  apply (@matrix_sample_in_slot ascii_externals (one_sample f5_4) f0 f10 f5
           [[nan; float_of_Z 7; nan]] [{[ str "job" := str "node" ]}]
           [f0; fadd f0 f5; fadd f0 (fmul (float_of_Z 2) (fsub (fadd f0 f5) f0))]
           0 (one_sample_series f5_4) 0 f5_4 (str "7")).
  - by vm_compute.
  - reflexivity.
  - reflexivity.
  - by vm_compute.
  - intros [|j'] t' v' Hlt Hj'; [lia|done].
Defined.

(** With start 0, end 10 and step 5 the grid has 3 points. A sample at 15
    has slot 3 and makes materialization fail; a sample at -5 has slot -1
    and is stored in the last cell of the row. *)
Lemma matrix_out_of_grid_not_dropped :
  arange_len f0 (fadd f10 f_1e_6) f5 = Ok 3
  ∧ slot f0 f5 f15 = 3%Z
  ∧ @_matrix_to_numpy ascii_externals (one_sample f15) f0 f10 f5 = Raise IndexError
  ∧ slot f0 f5 f_minus_5 = (-1)%Z
  ∧ buffer (@_matrix_to_numpy ascii_externals (one_sample f_minus_5) f0 f10 f5)
    = Ok [[nan; nan; float_of_Z 7]].
Proof. vm_compute. repeat split. Qed.

Lemma matrix_sample_out_of_grid_witness :
  arange_len f0 (fadd f10 f_1e_6) f5 = Ok 3
  ∧ (- 3 ≤ slot f0 f5 f_minus_5 < 0)%Z
  ∧ (∃ e, @_matrix_to_numpy ascii_externals (one_sample f15) f0 f10 f5 = Raise e)
  ∧ (∃ x row, parse_float (str "7") = Ok x ∧ [[nan; nan; float_of_Z 7]] !! 0 = Some row
              ∧ row !! Z.to_nat (slot f0 f5 f_minus_5 + 3) = Some x).
Proof.
  split; [by vm_compute|]. split; [by vm_compute|]. split.
  - apply (@matrix_sample_out_of_grid ascii_externals (one_sample f15) f0 f10 f5 3
             0 (one_sample_series f15) 0 f15 (str "7")); [by vm_compute|reflexivity|reflexivity|].
    right. vm_compute. discriminate.
  - pose proof (@matrix_sample_out_of_grid ascii_externals (one_sample f_minus_5) f0 f10 f5 3
                  0 (one_sample_series f_minus_5) 0 f_minus_5 (str "7")
                  ltac:(by vm_compute) eq_refl eq_refl) as Hthm.
    cbv zeta in Hthm. destruct Hthm as [_ Hin].
    destruct (Hin [[nan; nan; float_of_Z 7]] [{[ str "job" := str "node" ]}]
                [f0; fadd f0 f5; fadd f0 (fmul (float_of_Z 2) (fsub (fadd f0 f5) f0))]
                ltac:(by vm_compute)) as (_ & _ & Hneg).
    apply Hneg.
    + by vm_compute.
    + intros [|j'] t' v' Hlt Hj'; [lia|done].
Defined.

(** ** Sorting *)

Section Sorting.
Context {A : Type} (leb : A → A → bool).
Let R (a b : A) : Prop := leb a b = true.

Lemma insert_by_Permutation x l : insert_by leb x l ≡ₚ x :: l.
Proof.
  induction l as [|y l IH]; simpl; [done|].
  destruct (leb x y); [done|]. rewrite IH. apply Permutation_swap.
Qed.

Lemma py_sorted_Permutation l : py_sorted leb l ≡ₚ l.
Proof.
  induction l as [|x l IH]; simpl; [done|].
  unfold py_sorted in *. simpl. rewrite insert_by_Permutation. by f_equiv.
Qed.

Hypothesis leb_total : ∀ a b, leb a b = false → leb b a = true.
Hypothesis leb_trans : ∀ a b c, leb a b = true → leb b c = true → leb a c = true.

Lemma insert_by_sorted x l :
  StronglySorted R l → StronglySorted R (insert_by leb x l).
Proof.
  induction 1 as [|y l Hs IH Hall]; simpl.
  - repeat constructor.
  - destruct (leb x y) eqn:Hxy.
    + constructor; [by constructor|]. constructor; [done|].
      eapply Forall_impl; [exact Hall|]. intros z Hz. by eapply leb_trans.
    + constructor; [done|]. rewrite insert_by_Permutation.
      constructor; [by apply leb_total|done].
Qed.

Lemma py_sorted_sorted l : StronglySorted R (py_sorted leb l).
Proof.
  induction l as [|x l IH]; [constructor|].
  unfold py_sorted in *. simpl. by apply insert_by_sorted.
Qed.

End Sorting.

Lemma lex_leb_total a b : lex_leb a b = false → lex_leb b a = true.
Proof.
  revert b. induction a as [|x a IH]; intros [|y b]; simpl; try done.
  destruct (x <? y)%N eqn:Hxy; [done|]. apply N.ltb_ge in Hxy.
  destruct (x =? y)%N eqn:Exy.
  - apply N.eqb_eq in Exy as ->. rewrite N.ltb_irrefl, N.eqb_refl. apply IH.
  - apply N.eqb_neq in Exy. intros _.
    assert ((y <? x)%N = true) as -> by (apply N.ltb_lt; lia). done.
Qed.

Lemma lex_leb_trans a b c : lex_leb a b = true → lex_leb b c = true → lex_leb a c = true.
Proof.
  revert b c. induction a as [|x a IH]; intros [|y b] [|z c]; simpl; try done.
  destruct (x <? y)%N eqn:Hxy.
  - apply N.ltb_lt in Hxy. intros _.
    destruct (y <? z)%N eqn:Hyz.
    + apply N.ltb_lt in Hyz. intros _.
      assert ((x <? z)%N = true) as -> by (apply N.ltb_lt; lia). done.
    + destruct (y =? z)%N eqn:Eyz; [|done]. apply N.eqb_eq in Eyz as <-. intros _.
      assert ((x <? y)%N = true) as -> by (by apply N.ltb_lt). done.
  - destruct (x =? y)%N eqn:Exy; [|done]. apply N.eqb_eq in Exy as <-.
    intros Hab. destruct (x <? z)%N; [done|]. destruct (x =? z)%N; [|done].
    by apply IH.
Qed.

(** ** Label Index Builder *)

Lemma levels_loop_spec (ms : list LabelSet) :
  levels_loop ms = (⋃ (dom <$> (remap_name <$> ms)), remap_name <$> ms).
Proof.
  unfold levels_loop.
  assert (∀ (levels : gset pystr) (visited : list LabelSet),
            foldl (λ st m, let m' := remap_name m in (st.1 ∪ dom m', st.2 ++ [m']))
                  (levels, visited) ms
            = (levels ∪ ⋃ (dom <$> (remap_name <$> ms)), visited ++ (remap_name <$> ms)))
    as Hgen.
  { induction ms as [|m ms IH]; intros levels visited; simpl.
    - by rewrite union_empty_r_L, app_nil_r.
    - by rewrite IH, (assoc_L (∪)), <- app_assoc. }
  by rewrite Hgen, union_empty_l_L.
Qed.

(** Where [remap_name] leaves the names: [__name__] becomes
    [metric_name], and takes its value along. *)
Lemma remap_name_lookup (m : LabelSet) (k : pystr) :
  remap_name m !! k =
    if decide (k = str "__name__") then None
    else if decide (k = str "metric_name") then
      match m !! str "__name__" with Some v => Some v | None => m !! k end
    else m !! k.
Proof.
  unfold remap_name. destruct (m !! str "__name__") as [v|] eqn:Hname.
  - destruct (decide (k = str "__name__")) as [->|Hk].
    + rewrite lookup_insert_ne by done. apply lookup_delete_eq.
    + destruct (decide (k = str "metric_name")) as [->|Hk'].
      * apply lookup_insert_eq.
      * rewrite lookup_insert_ne by done. by apply lookup_delete_ne.
  - destruct (decide (k = str "__name__")) as [->|Hk]; [done|].
    by destruct (decide (k = str "metric_name")).
Qed.

(** The index in terms of the remapped label sets. *)
Lemma metric_index_spec (metrics : list LabelSet) (labels : option LabelSet) :
  let merged := remap_name <$> _merge_metric_labels metrics labels in
  let keys : gset pystr := ⋃ (dom <$> merged) in
  match _metric_index metrics labels with
  | Raise e => e = RuntimeError ∧ keys = ∅
  | Ok index =>
      keys ≠ ∅
      ∧ StronglySorted lex_le (names index)
      ∧ NoDup (names index)
      ∧ (∀ k, k ∈ names index ↔ k ∈ keys)
      ∧ length (tuples index) = length metrics
      ∧ ∀ j m, merged !! j = Some m →
          ∃ tup, tuples index !! j = Some tup
                 ∧ length tup = length (names index)
                 ∧ ∀ i level, names index !! i = Some level → tup !! i = Some (m !! level)
  end.
Proof.
  intros merged keys. unfold _metric_index.
  rewrite levels_loop_spec. fold merged. fold keys.
  pose proof (py_sorted_Permutation lex_leb (elements keys)) as Hperm.
  destruct (decide (length (py_sorted lex_leb (elements keys)) = 0)) as [Hz|Hnz].
  - split; [done|]. rewrite Hperm in Hz. apply nil_length_inv in Hz.
    by apply elements_empty_inv, leibniz_equiv in Hz.
  - split.
    { intros ->. apply Hnz. by rewrite Hperm, elements_empty. }
    simpl. split.
    { apply (py_sorted_sorted lex_leb lex_leb_total lex_leb_trans). } split.
    { rewrite Hperm. apply NoDup_elements. } split.
    { intros k. rewrite Hperm. apply elem_of_elements. } split.
    { unfold merged. rewrite !length_fmap. unfold _merge_metric_labels.
      destruct labels as [l|]; [|done]. case_decide; [done|]. by rewrite length_fmap. }
    intros j m Hj. eexists. split; [by rewrite list_lookup_fmap, Hj|].
    split; [by rewrite length_fmap|].
    intros i level Hi. by rewrite list_lookup_fmap, Hi.
Qed.

(** The remap moves the value of [__name__] to the level [metric_name]. *)
Lemma remap_name_level_value (m : LabelSet) (k : pystr) :
  remap_name m !! k = level_value m k.
Proof.
  rewrite remap_name_lookup. unfold level_value.
  destruct (decide (k = str "__name__")); [done|].
  by destruct (decide (k = str "metric_name")) as [->|].
Qed.

(** The merge of the source gives every series the extra labels, which
    override its own. *)
Lemma merge_metric_labels_extra (metrics : list LabelSet) (labels : option LabelSet) :
  _merge_metric_labels metrics labels = with_extra_labels metrics labels.
Proof.
  unfold _merge_metric_labels, with_extra_labels. destruct labels as [l|]; simpl.
  - case_decide as Hl; [|done]. subst l.
    induction metrics as [|m metrics IH]; [done|].
    rewrite fmap_cons, <- IH. by rewrite (left_id_L ∅ (∪)).
  - induction metrics as [|m metrics IH]; [done|].
    rewrite fmap_cons, <- IH. by rewrite (left_id_L ∅ (∪)).
Qed.

(** The order of the model is the order of Python's strings. *)
Lemma lex_leb_str_le a b : lex_leb a b = true → str_le a b.
Proof.
  revert b. induction a as [|x a IH]; intros [|y b]; simpl; [constructor..|done|].
  destruct (x <? y)%N eqn:Hlt.
  - intros _. apply str_le_lt. by apply N.ltb_lt.
  - destruct (x =? y)%N eqn:Heq; [|done]. apply N.eqb_eq in Heq as ->.
    intros Hab. apply str_le_eq. by apply IH.
Qed.

Lemma sorted_str_le (l : list pystr) : StronglySorted lex_le l → StronglySorted str_le l.
Proof.
  induction 1 as [|x l _ IH Hall]; constructor; [done|].
  eapply Forall_impl; [exact Hall|]. intros y. apply lex_leb_str_le.
Qed.

Lemma elem_of_remapped_keys (merged : list LabelSet) (k : pystr) :
  k ∈ (⋃ (dom <$> (remap_name <$> merged)) : gset pystr)
  ↔ ∃ m, m ∈ merged ∧ is_Some (level_value m k).
Proof.
  rewrite elem_of_union_list. split.
  - intros (X & HX & Hk). apply list_elem_of_fmap in HX as (m' & -> & Hm').
    apply list_elem_of_fmap in Hm' as (m & -> & Hm).
    exists m. split; [done|]. rewrite <- remap_name_level_value. by apply elem_of_dom.
  - intros (m & Hm & Hk). exists (dom (remap_name m)). split.
    + apply list_elem_of_fmap. exists (remap_name m). split; [done|].
      apply list_elem_of_fmap. eauto.
    + apply elem_of_dom. by rewrite remap_name_level_value.
Qed.

(** C4: the levels are the key names of the merged label sets, the
    reserved name [__name__] counted as [metric_name], each once and in the
    order of Python's strings; the index cannot be built (RuntimeError)
    exactly when there is no such name; otherwise there is one tuple per
    series, in series order, as long as the levels, whose position [i]
    holds the value of the series for level [i], the value of [__name__]
    for the level [metric_name], or nothing when the series lacks that
    name. *)
Theorem metric_index_levels_and_tuples (metrics : list LabelSet) (labels : option LabelSet) :
  let merged := with_extra_labels metrics labels in
  let is_level (k : pystr) : Prop := ∃ m, m ∈ merged ∧ is_Some (level_value m k) in
  match _metric_index metrics labels with
  | Raise e => e = RuntimeError ∧ ∀ k, ¬ is_level k
  | Ok index =>
      (∃ k, is_level k)
      ∧ StronglySorted str_le (names index)
      ∧ NoDup (names index)
      ∧ (∀ k, k ∈ names index ↔ is_level k)
      ∧ ¬ (str "__name__" ∈ names index)
      ∧ length (tuples index) = length metrics
      ∧ ∀ j m, merged !! j = Some m →
          ∃ tup, tuples index !! j = Some tup
                 ∧ length tup = length (names index)
                 ∧ ∀ i level, names index !! i = Some level →
                     tup !! i = Some (level_value m level)
  end
  ∧ _metric_index example_metrics None
    = Ok {| names := [str "instance"; str "job"; str "metric_name"];
            tuples := [[None; Some (str "node"); Some (str "up")];
                       [Some (str "a"); None; None]] |}.
Proof.
  intros merged is_level. split; [|by vm_compute].
  pose proof (metric_index_spec metrics labels) as Hspec. cbv zeta in Hspec.
  rewrite merge_metric_labels_extra in Hspec. fold merged in Hspec.
  assert (∀ k, k ∈ (⋃ (dom <$> (remap_name <$> merged)) : gset pystr) ↔ is_level k)
    as Hkeys by apply elem_of_remapped_keys.
  destruct (_metric_index metrics labels) as [index|e].
  - destruct Hspec as (Hne & Hsorted & Hnodup & Hnames & Hlen & Htup).
    split.
    { apply set_choose_L in Hne as [k Hk]. exists k. by apply Hkeys. }
    split; [by apply sorted_str_le|]. split; [done|]. split.
    { intros k. by rewrite Hnames. }
    split.
    { rewrite Hnames, Hkeys. intros (m & _ & [v Hv]). unfold level_value in Hv.
      by rewrite decide_True in Hv. }
    split; [done|]. intros j m Hj.
    destruct (Htup j (remap_name m)) as (tup & Ht & Hl & Hval).
    { by rewrite list_lookup_fmap, Hj. }
    exists tup. split; [done|]. split; [done|]. intros i level Hi.
    by rewrite (Hval i level Hi), remap_name_level_value.
  - destruct Hspec as [-> Hempty]. split; [done|]. intros k Hk.
    apply Hkeys in Hk. rewrite Hempty in Hk. by apply not_elem_of_empty in Hk.
Qed.
(** [_metric_index] without its loop. *)
Lemma metric_index_unfold (metrics : list LabelSet) (labels : option LabelSet) :
  _metric_index metrics labels =
    let merged := remap_name <$> _merge_metric_labels metrics labels in
    let levels := py_sorted lex_leb (elements (⋃ (dom <$> merged) : gset pystr)) in
    if decide (length levels = 0) then Raise RuntimeError
    else Ok {| names := levels;
               tuples := (λ m : LabelSet, (λ level, m !! level) <$> levels) <$> merged |}.
Proof. unfold _metric_index. by rewrite levels_loop_spec. Qed.

Lemma level_of_remap (labels m : LabelSet) (k v : pystr) :
  labels !! k = Some v → is_Some (remap_name (labels ∪ m) !! level_of k).
Proof.
  intros Hk. assert ((labels ∪ m) !! k = Some v) as Hu by by apply lookup_union_Some_l.
  rewrite remap_name_lookup. unfold level_of.
  destruct (decide (k = str "__name__")) as [->|Hne].
  - rewrite decide_False by done. rewrite decide_True by done. rewrite Hu. eauto.
  - rewrite decide_False by done.
    destruct (decide (k = str "metric_name")); [|by eauto].
    destruct ((labels ∪ m) !! str "__name__"); eauto.
Qed.

(** With extra labels, each tuple of the index is read off the label set
    of its series merged with the extra labels, an extra label taking
    precedence, and every extra label has its level. *)
Lemma metric_index_extra_labels (metrics : list LabelSet) (labels : LabelSet) index :
  labels ≠ ∅ →
  _metric_index metrics (Some labels) = Ok index →
  (∀ j m, metrics !! j = Some m →
     tuples index !! j
       = Some ((λ level, remap_name (labels ∪ m) !! level) <$> names index))
  ∧ (∀ k v, labels !! k = Some v → level_of k ∈ names index).
Proof.
  intros Hne. rewrite metric_index_unfold. cbv zeta.
  unfold _merge_metric_labels. destruct (decide (labels = ∅)) as [|_]; [done|].
  case_decide as Hlen; [done|]. intros [= <-]. simpl. split.
  - intros j m Hj. by rewrite !list_lookup_fmap, Hj.
  - intros k v Hk. rewrite py_sorted_Permutation. apply elem_of_elements.
    destruct metrics as [|m metrics].
    { exfalso. apply Hlen. rewrite py_sorted_Permutation. simpl. by rewrite elements_empty. }
    simpl. apply elem_of_union_l, elem_of_dom. by eapply level_of_remap.
Qed.

Section ExtraLabels.
Context {ext : Externals}.

Lemma vector_loop_metrics results : ∀ ii data metrics data' metrics',
  vector_loop ii results data metrics = Ok (data', metrics') →
  metrics' = metrics ++ (vs_metric <$> results).
Proof.
  induction results as [|t rest IH]; intros ii data metrics data' metrics' Hl; simpl in Hl.
  - injection Hl as <- <-. by rewrite app_nil_r.
  - apply bind_Ok_inv in Hl as (x & _ & Hl). apply IH in Hl as ->.
    by rewrite fmap_cons, <- app_assoc.
Qed.

Lemma to_pandas_index results start end_ step sort labels table index :
  _to_pandas results start end_ step sort labels = Ok table →
  pandas_index table = Some index →
  _metric_index (engine_metrics results sort) labels = Ok index.
Proof.
  destruct results as [r|r|[t v]|r|tag]; simpl; intros Hp Hidx.
  - apply bind_Ok_inv in Hp as ([data metrics] & Hv & Hp).
    apply fmap_Ok_inv in Hp as (s & Hs & ->). simpl in Hidx. injection Hidx as <-.
    unfold _numpy_to_series in Hs. apply bind_Ok_inv in Hs as (index & Hi & [= <-]). simpl.
    unfold _vector_to_numpy in Hv. apply vector_loop_metrics in Hv as ->. done.
  - destruct start as [start|]; [|done]. destruct end_ as [end_|]; [|done].
    destruct step as [step|]; [|done].
    apply bind_Ok_inv in Hp as (step' & _ & Hp).
    apply bind_Ok_inv in Hp as ([[data metrics] times] & Hm & Hp).
    apply fmap_Ok_inv in Hp as (df & Hdf & ->). simpl in Hidx. injection Hidx as <-.
    unfold _numpy_to_dataframe in Hdf. apply bind_Ok_inv in Hdf as (index & Hi & [= <-]). simpl.
    unfold _matrix_to_numpy in Hm. apply bind_Ok_inv in Hm as (times' & _ & Hm).
    apply bind_Ok_inv in Hm as ([data' metrics'] & Hloop & [= <- <- <-]).
    apply matrix_loop_Ok in Hloop as (_ & -> & _). done.
  - destruct sort; [done|]. apply bind_Ok_inv in Hp as (x & _ & [= <-]). done.
  - destruct sort; [done|]. injection Hp as <-. done.
  - done.
Qed.

(** In a table that [_to_pandas] builds with extra labels, the tuple of
    every series is read off the label set the engine produced merged with
    the extra labels, an extra label overriding an engine label of the same
    name, and then remapped; so every extra label has a level, under its
    own name except for [__name__], whose level is [metric_name]. *)
Theorem to_pandas_merges_extra_labels results start end_ step sort labels table index :
  labels ≠ ∅ →
  _to_pandas results start end_ step sort (Some labels) = Ok table →
  pandas_index table = Some index →
  (∀ j m, engine_metrics results sort !! j = Some m →
     tuples index !! j
       = Some ((λ level, remap_name (labels ∪ m) !! level) <$> names index))
  ∧ (∀ k v, labels !! k = Some v → level_of k ∈ names index).
Proof.
  intros Hne Hp Hidx. apply (metric_index_extra_labels _ _ _ Hne).
  by eapply to_pandas_index.
Qed.

End ExtraLabels.

(** A range query with the extra label [__name__]: the levels are [job] and
    [metric_name], and [__name__] is not among them. *)
Lemma range_query_reserved_extra_label :
  example_labels !! str "__name__" = Some (str "x")
  ∧ table_levels (run_range example_uncached_client (Some example_labels) None empty_world)
    = Some [str "job"; str "metric_name"]
  ∧ str "__name__" ∉ [str "job"; str "metric_name"].
Proof.
  split; [by vm_compute|]. split; [by vm_compute|].
  apply (bool_decide_eq_false_1 _). by vm_compute.
Qed.

(** C5, at an instant query with the extra label [env]: [query] never
    hands its [labels] argument to [_to_pandas], so that for every client,
    server and argument it returns what it returns without the labels. At
    the example server its table has the levels [job] and [metric_name]
    with or without the label, where the range query with the same label,
    which hands it on, has the level [env] as well. *)
Theorem instant_query_ignores_labels :
  (∀ (ext : Externals) (net : Transport) self q labels time timeout sort w,
     query self q labels time timeout sort w = query self q None time timeout sort w)
  ∧ example_env !! str "env" = Some (str "prod")
  ∧ table_levels (run_instant (Some example_env) None) = Some [str "job"; str "metric_name"]
  ∧ table_levels (run_instant None None) = Some [str "job"; str "metric_name"]
  ∧ table_levels (run_range example_uncached_client (Some example_env) None empty_world)
    = Some [str "env"; str "job"; str "metric_name"].
Proof. split; [done|]. repeat split; by vm_compute. Qed.

Lemma to_pandas_merges_extra_labels_witness :
  ∃ table index,
    @_to_pandas ascii_externals example_matrix (Some f0) (Some f10) (Some (PyInt 5)) None
      (Some example_env) = Ok table
    ∧ pandas_index table = Some index
    ∧ (∀ j m, engine_metrics example_matrix None !! j = Some m →
         tuples index !! j
           = Some ((λ level, remap_name (example_env ∪ m) !! level) <$> names index))
    ∧ (∀ k v, example_env !! k = Some v → level_of k ∈ names index).
Proof.
  eexists _, _. split; [by vm_compute|]. split; [reflexivity|].
  eapply (@to_pandas_merges_extra_labels ascii_externals example_matrix
            (Some f0) (Some f10) (Some (PyInt 5)) None example_env).
  - intros Heq. apply (f_equal (λ m : LabelSet, m !! str "env")) in Heq.
    vm_compute in Heq. discriminate.
  - by vm_compute.
  - reflexivity.
Defined.

(** ** Programs on the world *)

Lemma bindW_lift {A B} (r : result A) (k : A → Prog B) (w : world) :
  bindW (lift r) k w = match r with Ok a => k a w | Raise e => (Raise e, w) end.
Proof. by destruct r. Qed.

Lemma bindW_retW {A B} (a : A) (k : A → Prog B) (w : world) : bindW (retW a) k w = k a w.
Proof. done. Qed.

Lemma bindW_assoc {A B C} (m : Prog A) (k1 : A → Prog B) (k2 : B → Prog C) (w : world) :
  bindW (bindW m k1) k2 w = bindW m (λ a, bindW (k1 a) k2) w.
Proof. unfold bindW. by destruct (m w) as [[a|e] w']. Qed.

Lemma fs_emit ev w : fs (emit ev w) = fs w.
Proof. done. Qed.

Lemma trace_emit ev w : trace (emit ev w) = trace w ++ [ev].
Proof. done. Qed.

Lemma bindW_os_path_exists {B} p (k : bool → Prog B) w :
  bindW (os_path_exists p) k w
    = k (bool_decide (is_Some (fs w !! p))) (emit (EvExists p) w).
Proof. done. Qed.

Lemma bindW_read_parquet {pq : Parquet} {B} p bytes (k : DataFrame → Prog B) w :
  fs w !! p = Some (File bytes) →
  bindW (read_parquet p) k w
    = match parquet_read bytes with
      | Ok df => k df (emit (EvRead p) w)
      | Raise e => (Raise e, emit (EvRead p) w)
      end.
Proof. intros Hp. unfold bindW, read_parquet. simpl. by rewrite Hp. Qed.

Section Emits.
Context {P : event → Prop}.





Lemma emits_one {A} (ev : event) (f : world → result A * world) :
  P ev → (∀ w, trace (f w).2 = trace w) → emits P (λ w, f (emit ev w)).
Proof.
  intros Hev Hf w. exists [ev]. split; [by rewrite Hf|by constructor].
Qed.






End Emits.

(** ** Cache Manager *)

Section CacheManager.
Context {ext : Externals} {net : Transport} {pq : Parquet}.








End CacheManager.

(** ** The cache key *)

Section Digest.
Local Open Scope Z_scope.






End Digest.

(** The digests of the texts [abc] and [up]. *)
Lemma sha256_hexdigest_examples :
  sha256_hexdigest (str "abc")
    = Ok (str "ba7816bf8f01cfea414140de5dae2223b00361a396177a9cb410ff61f20015ad")
  ∧ sha256_hexdigest []
    = Ok (str "e3b0c44298fc1c149afbf4c8996fb92427ae41e4649b934ca495991b7852b855").
Proof. split; by vm_compute. Qed.

Section CacheKey.
Context {ext : Externals} {net : Transport} {pq : Parquet}.




End CacheKey.


(** ** Invalidation and cache hits *)

Section CacheFlow.
Context {ext : Externals} {net : Transport} {pq : Parquet}.

Lemma flush_query_cache_present self cache_path query key w df :
  _cache_path self = Some cache_path →
  sha256_hexdigest query = Ok key →
  fs w !! cache_file cache_path key = Some (File df) →
  flush_query_cache self query w
    = (Ok tt, set_fs (delete (cache_file cache_path key) (fs w))
                     (emit (EvRemove (cache_file cache_path key)) w)).
Proof.
  intros Hcp Hkey Hfile. unfold flush_query_cache.
  rewrite bindW_lift, Hkey, Hcp. unfold os_remove. simpl. by rewrite Hfile.
Qed.

Lemma flush_query_cache_absent self cache_path query key w :
  _cache_path self = Some cache_path →
  sha256_hexdigest query = Ok key →
  fs w !! cache_file cache_path key = None →
  flush_query_cache self query w
    = (Raise FileNotFoundError, emit (EvRemove (cache_file cache_path key)) w).
Proof.
  intros Hcp Hkey Hfile. unfold flush_query_cache.
  rewrite bindW_lift, Hkey, Hcp. unfold os_remove. simpl. by rewrite Hfile.
Qed.

(** Step over a normalisation that may raise: when it does, the program
    stops there, with the world as it was. *)
Ltac lift_or_stop :=
  rewrite bindW_lift;
  match goal with
  | |- context [match ?r with Ok _ => _ | Raise _ => _ end] =>
      destruct r eqn:?;
        [|eexists _, _, []; split; [reflexivity|by rewrite app_nil_r]]
  end.

(** C9: [flush_query_cache] removes the cache file of the query and nothing
    else; it raises FileNotFoundError when there is no such file, so that a
    range query with a forced flush, for a query that has no cache file,
    fails without contacting the transport and leaves the files as they
    were. *)
Theorem flush_query_cache_needs_the_file self cache_path query key :
  _cache_path self = Some cache_path →
  sha256_hexdigest query = Ok key →
  (∀ w df, fs w !! cache_file cache_path key = Some (File df) →
     ∃ w', flush_query_cache self query w = (Ok tt, w')
           ∧ fs w' = delete (cache_file cache_path key) (fs w))
  ∧ (∀ w, fs w !! cache_file cache_path key = None →
       ∃ w', flush_query_cache self query w = (Raise FileNotFoundError, w')
             ∧ fs w' = fs w)
  ∧ (∀ w start end_ step labels timeout sort,
       fs w !! cache_file cache_path key = None →
       ∃ e w' evs,
         query_range self query start end_ step labels timeout sort true w = (Raise e, w')
         ∧ fs w' = fs w
         ∧ trace w' = trace w ++ evs
         ∧ Forall offline evs).
Proof.
  intros Hcp Hkey. split; [|split].
  - intros w df Hfile. eexists. split; [by eapply flush_query_cache_present|done].
  - intros w Hfile. eexists. split; [by eapply flush_query_cache_absent|done].
  - intros w start end_ step labels timeout sort Hfile. unfold query_range.
    do 4 lift_or_stop. rewrite bindW_lift, Hkey, Hcp.
    unfold bindW at 1 2.
    rewrite (flush_query_cache_absent _ _ _ _ _ Hcp Hkey Hfile). simpl.
    eexists _, _, [_]. split; [reflexivity|]. repeat split. by constructor.
Qed.

(** C10, as amended: with a cache directory configured, no forced flush,
    and a cache file present for the key of the query, a range query whose
    start, end, step and timeout normalise without error returns what
    [pd.read_parquet] makes of that file: the table it reads, as it is, or
    the error it raises. Either way the query sends no request and changes
    no file, and its outcome does not depend on start, end, step, sort or
    labels. Nothing is assumed of the table that is read; it need not be
    the one that was written to the file. (The times are normalised before
    the cache is consulted, so that an invalid one makes the query fail
    even then.) *)
Theorem query_range_served_from_cache self cache_path query key bytes
    start end_ step labels timeout sort w :
  _cache_path self = Some cache_path →
  sha256_hexdigest query = Ok key →
  is_Some (fs w !! cache_path) →
  fs w !! cache_file cache_path key = Some (File bytes) →
  is_Ok (to_ts start) → is_Ok (to_ts end_) →
  is_Ok (duration_to_s step) → is_Ok (optional duration_to_s timeout) →
  ∃ w' evs,
    query_range self query start end_ step labels timeout sort false w
      = (PdMatrix <$> parquet_read bytes, w')
    ∧ fs w' = fs w
    ∧ trace w' = trace w ++ evs
    ∧ Forall offline evs.
Proof.
  intros Hcp Hkey Hdir Hfile [a Ha] [b Hb] [c Hc] [d Hd]. unfold query_range.
  rewrite bindW_lift, Ha, bindW_lift, Hb, bindW_lift, Hc, bindW_lift, Hd.
  rewrite bindW_lift, Hkey, Hcp.
  rewrite bindW_assoc, bindW_retW, bindW_assoc, bindW_os_path_exists.
  rewrite (bool_decide_eq_true_2 _ Hdir).
  rewrite bindW_assoc, bindW_os_path_exists, fs_emit.
  rewrite bool_decide_eq_true_2 by (rewrite Hfile; eauto).
  rewrite bindW_assoc, (bindW_read_parquet _ bytes) by (by rewrite !fs_emit).
  destruct (parquet_read bytes) as [df|e]; [rewrite !bindW_retW; unfold retW|];
    (eexists _, [_; _; _]; split; [reflexivity|];
     repeat split; [by rewrite !trace_emit, <- !app_assoc|]; by repeat constructor).
Qed.

End CacheFlow.

Lemma flush_query_cache_needs_the_file_witness :
  ∃ key,
    sha256_hexdigest example_query = Ok key
    ∧ fs empty_world !! cache_file [str "cache"] key = None
    ∧ ∃ e w' evs,
        run_range_flush empty_world = (Raise e, w')
        ∧ fs w' = fs empty_world
        ∧ trace w' = trace empty_world ++ evs
        ∧ Forall offline evs.
Proof.
  eexists. split; [by vm_compute|]. split; [reflexivity|].
  eapply (proj2 (proj2 (@flush_query_cache_needs_the_file ascii_externals example_transport example_parquet
                          example_client [str "cache"] example_query _ eq_refl
                          ltac:(by vm_compute)))).
  reflexivity.
Defined.

(** After a first range query the cache holds its table, in a file that
    can be read back. A second query with a step that is not a duration
    raises instead of returning it. *)
Lemma cache_hit_with_invalid_step :
  (∃ key bytes df,
     sha256_hexdigest example_query = Ok key
     ∧ fs cached_world !! [str "cache"] = Some Dir
     ∧ fs cached_world !! cache_file [str "cache"] key = Some (File bytes)
     ∧ @parquet_read example_parquet bytes = Ok df)
  ∧ (run_range_bad_step cached_world).1 = Raise ValueError.
Proof.
  split; [|by vm_compute].
  eexists _, _, _. split; [by vm_compute|]. split; [by vm_compute|].
  split; by vm_compute.
Qed.

Lemma query_range_served_from_cache_witness :
  ∃ key bytes,
    sha256_hexdigest example_query = Ok key
    ∧ fs cached_world !! cache_file [str "cache"] key = Some (File bytes)
    ∧ is_Ok (@parquet_read example_parquet bytes)
    ∧ ∃ w' evs,
        run_range_other cached_world = (PdMatrix <$> @parquet_read example_parquet bytes, w')
        ∧ fs w' = fs cached_world
        ∧ trace w' = trace cached_world ++ evs
        ∧ Forall offline evs.
Proof.
  eexists _, _. split; [by vm_compute|]. split; [by vm_compute|].
  split; [eexists; by vm_compute|].
  eapply (@query_range_served_from_cache ascii_externals example_transport example_parquet
            example_client [str "cache"] example_query).
  - reflexivity.
  - by vm_compute.
  - exists Dir. by vm_compute.
  - by vm_compute.
  - eexists. reflexivity.
  - eexists. reflexivity.
  - eexists. by vm_compute.
  - eexists. reflexivity.
Defined.

(** ** Sorting the series of a query *)

Section InstantSort.
Context {ext : Externals} {net : Transport}.

(** An instant query that is given a sort function never returns: where
    [_to_pandas] sorts [results['result']], [query] sorts the dictionary
    [results] itself, whose elements are its keys. *)
Lemma query_with_sort_raises self q labels time timeout f w :
  ∃ e w', query self q labels time timeout (Some f) w = (Raise e, w').
Proof.
  unfold query. rewrite bindW_lift.
  destruct (optional to_ts time) as [t|e]; [|by eauto].
  rewrite bindW_lift. destruct (optional duration_to_s timeout) as [d|e]; [|by eauto].
  unfold bindW.
  destruct (_do_query self _ _ w) as [[results|e] w']; [|by eauto].
  simpl. eauto.
Qed.

End InstantSort.

(** C6, at an instant query of the example client: sorted by the [job]
    label it raises TypeError, without a sort function it returns its
    vector; the range query with the same sort function returns the columns
    of the unsorted run in another order. *)
Theorem instant_query_sort_fails :
  (run_instant None (Some by_job)).1 = Raise TypeError
  ∧ table_levels (run_instant None None) = Some [str "job"; str "metric_name"]
  ∧ (∃ df df',
       (run_range example_uncached_client None None empty_world).1 = Ok (PdMatrix df)
       ∧ (run_range example_uncached_client None (Some by_job) empty_world).1
         = Ok (PdMatrix df')
       ∧ df_items df' = reverse (df_items df)).
Proof.
  split; [by vm_compute|]. split; [by vm_compute|].
  eexists _, _. split; [by vm_compute|]. split; by vm_compute.
Qed.

(** ** The regular-expression matcher *)

Lemma prefix_strip_Some p s rest : prefix_strip p s = Some rest → s = p ++ rest.
Proof.
  revert s. induction p as [|x p IH]; intros [|y s]; simpl; try done.
  - by intros [= <-].
  - by intros [= <-].
  - destruct (x =? y)%N eqn:E; [|done]. apply N.eqb_eq in E as <-.
    intros Hs. by rewrite (IH _ Hs).
Qed.

Lemma prefix_strip_app p rest : prefix_strip p (p ++ rest) = Some rest.
Proof. induction p as [|x p IH]; simpl; [by destruct rest|]. by rewrite N.eqb_refl. Qed.

Lemma elem_of_plus_iter m fuel s caps x :
  x ∈ plus_iter m (S fuel) s caps ↔
  ∃ s1 c1, (s1, c1) ∈ m s caps
           ∧ (x = (s1, c1) ∨ (length s1 < length s ∧ x ∈ plus_iter m fuel s1 c1)).
Proof.
  simpl. rewrite list_elem_of_bind. split.
  - intros ([s1 c1] & Hx & Hm). exists s1, c1. split; [done|].
    apply elem_of_app in Hx as [Hx|Hx].
    + right. case_decide; [done|by apply elem_of_nil in Hx].
    + left. by apply list_elem_of_singleton in Hx.
  - intros (s1 & c1 & Hm & Hx). exists (s1, c1). split; [|done].
    apply elem_of_app. destruct Hx as [->|[Hlt Hx]].
    + right. by apply list_elem_of_singleton.
    + left. by rewrite decide_True.
Qed.

Lemma plus_iter_mono m fuel : ∀ fuel' s caps x,
  fuel ≤ fuel' → x ∈ plus_iter m fuel s caps → x ∈ plus_iter m fuel' s caps.
Proof.
  induction fuel as [|fuel IH]; intros fuel' s caps x Hle Hx.
  - by apply elem_of_nil in Hx.
  - destruct fuel' as [|fuel']; [lia|].
    apply elem_of_plus_iter in Hx as (s1 & c1 & Hm & Hx).
    apply elem_of_plus_iter. exists s1, c1. split; [done|].
    destruct Hx as [->|[Hlt Hx]]; [by left|right]. split; [done|]. apply IH; [lia|done].
Qed.

(** Every way of matching consumes a word of the language. *)
Lemma plus_iter_sound m r :
  (∀ s c s1 c1, (s1, c1) ∈ m s c → ∃ w, s = w ++ s1 ∧ lang r w) →
  ∀ fuel s c s1 c1, (s1, c1) ∈ plus_iter m fuel s c → ∃ w, s = w ++ s1 ∧ lang (Plus r) w.
Proof.
  intros Hm. induction fuel as [|fuel IH]; intros s c s1 c1 Hx.
  - by apply elem_of_nil in Hx.
  - apply elem_of_plus_iter in Hx as (s' & c' & Hs' & Hx).
    destruct (Hm _ _ _ _ Hs') as (w1 & -> & Hw1).
    destruct Hx as [[= -> ->]|[_ Hx]].
    + exists w1. split; [done|by constructor].
    + destruct (IH _ _ _ _ Hx) as (w2 & -> & Hw2).
      exists (w1 ++ w2). split; [by rewrite app_assoc|by apply lang_plus_more].
Qed.

Lemma rmatch_sound r : ∀ s c s1 c1,
  (s1, c1) ∈ rmatch r s c → ∃ w, s = w ++ s1 ∧ lang r w.
Proof.
  induction r as [p|l|r1 IH1 r2 IH2|r1 IH1 r2 IH2|r IH|i r IH]; intros s c s1 c1 Hx; simpl in Hx.
  - destruct s as [|a s]; [by apply elem_of_nil in Hx|].
    destruct (p a) eqn:Hp; [|by apply elem_of_nil in Hx].
    apply list_elem_of_singleton in Hx as [= -> ->].
    exists [a]. split; [done|by constructor].
  - destruct (prefix_strip l s) as [s'|] eqn:Hl; [|by apply elem_of_nil in Hx].
    apply list_elem_of_singleton in Hx as [= -> ->].
    exists l. split; [by apply prefix_strip_Some|constructor].
  - apply list_elem_of_bind in Hx as ([s' c'] & Hx & Hs').
    destruct (IH1 _ _ _ _ Hs') as (w1 & -> & Hw1).
    destruct (IH2 _ _ _ _ Hx) as (w2 & -> & Hw2).
    exists (w1 ++ w2). split; [by rewrite app_assoc|by constructor].
  - apply elem_of_app in Hx as [Hx|Hx].
    + destruct (IH1 _ _ _ _ Hx) as (w & -> & Hw). exists w. split; [done|by apply lang_alt_l].
    + destruct (IH2 _ _ _ _ Hx) as (w & -> & Hw). exists w. split; [done|by apply lang_alt_r].
  - exact (plus_iter_sound _ _ IH (S (length s)) s c s1 c1 Hx).
  - apply list_elem_of_bind in Hx as ([s' c'] & Hx & Hs').
    apply list_elem_of_singleton in Hx as [= -> ->].
    destruct (IH _ _ _ _ Hs') as (w & -> & Hw). exists w. split; [done|by constructor].
Qed.

(** Every word of the language can be matched, whatever follows it. *)
Lemma rmatch_complete r w :
  lang r w → ∀ rest c, ∃ c', (rest, c') ∈ rmatch r (w ++ rest) c.
Proof.
  induction 1 as [p a Hp|l|r1 r2 w1 w2 _ IH1 _ IH2|r1 r2 w _ IH|r1 r2 w _ IH
                  |r w _ IH|r w1 w2 _ IH1 _ IH2|i r w _ IH]; intros rest c; simpl.
  - rewrite Hp. exists c. by apply list_elem_of_singleton.
  - rewrite prefix_strip_app. exists c. by apply list_elem_of_singleton.
  - destruct (IH1 (w2 ++ rest) c) as (c1 & H1). destruct (IH2 rest c1) as (c2 & H2).
    exists c2. apply list_elem_of_bind. exists (w2 ++ rest, c1).
    split; [done|by rewrite <- app_assoc].
  - destruct (IH rest c) as (c' & Hc). exists c'. apply elem_of_app. by left.
  - destruct (IH rest c) as (c' & Hc). exists c'. apply elem_of_app. by right.
  - destruct (IH rest c) as (c' & Hc). exists c'.
    apply elem_of_plus_iter. exists rest, c'. split; [done|by left].
  - destruct (IH1 (w2 ++ rest) c) as (c1 & H1).
    destruct w1 as [|a w1].
    + apply (IH2 rest c).
    + destruct (IH2 rest c1) as (c2 & H2). exists c2.
      apply elem_of_plus_iter. exists (w2 ++ rest), c1.
      split; [by rewrite <- app_assoc|]. right.
      split; [rewrite !length_app; simpl; lia|].
      eapply (plus_iter_mono _ (S (length (w2 ++ rest)))); [|exact H2].
      rewrite !length_app. simpl. lia.
  - destruct (IH rest c) as (c' & Hc). eexists.
    apply list_elem_of_bind. exists (rest, c'). split; [|done].
    by apply list_elem_of_singleton.
Qed.

(** [re.fullmatch] succeeds exactly on the words of the language. *)
Lemma re_fullmatch_lang r s : is_Some (re_fullmatch r s) ↔ lang r s.
Proof.
  unfold re_fullmatch. split.
  - intros [c Hc]. apply fmap_Some in Hc as ([s1 c1] & Hh & _).
    apply head_Some_elem_of, list_elem_of_filter in Hh as [Hnil Hin].
    simpl in Hnil. subst s1.
    destruct (rmatch_sound _ _ _ _ _ Hin) as (w & -> & Hw). by rewrite app_nil_r.
  - intros Hl. destruct (rmatch_complete _ _ Hl [] ∅) as (c & Hc).
    rewrite app_nil_r in Hc.
    assert (([] : pystr, c) ∈ filter (λ m : pystr * captures, m.1 = []) (rmatch r s ∅)) as Hf.
    { by apply list_elem_of_filter. }
    destruct (filter _ _) as [|x xs]; [by apply elem_of_nil in Hf|]. simpl. eauto.
Qed.

(** ** Time Normalizer: durations *)

Section DurationParser.
Context {ext : Externals}.

Lemma is_decimal_true c : is_decimal c = true ↔ is_Some (unicode_decimal c).
Proof. unfold is_decimal. apply bool_decide_eq_true. Qed.

(** An ASCII character that is not a digit is not decimal; the letters
    are such. *)
Lemma ascii_not_decimal c : (58 ≤ c < 128)%N → unicode_decimal c = None.
Proof. intros Hc. rewrite unicode_decimal_ascii by lia. apply decide_False. lia. Qed.

Lemma ascii_digit_decimal c :
  (48 ≤ c ≤ 57)%N → unicode_decimal c = Some (Z.of_N c - 48)%Z.
Proof. intros Hc. rewrite unicode_decimal_ascii by lia. by apply decide_True. Qed.

Lemma units_eq : units = [str "ms"; str "s"; str "m"; str "h"; str "d"; str "w"; str "y"].
Proof. reflexivity. Qed.

(** The units of the grammar are the keys of the dictionary of the source,
    in its order. *)
Lemma duration_codes_units : fst <$> duration_codes = units.
Proof. reflexivity. Qed.

Lemma unit_head u : u ∈ units → ∃ c u', u = c :: u' ∧ (58 ≤ c < 128)%N.
Proof.
  rewrite units_eq. intros Hu.
  repeat (apply elem_of_cons in Hu as [->|Hu];
          [eexists _, _; split;
             [reflexivity|vm_compute; split; [discriminate|reflexivity]]|]).
  by apply elem_of_nil in Hu.
Qed.

(** *** The language of the pattern is the grammar *)

Lemma lang_class_inv p w : lang (Class p) w → ∃ c, w = [c] ∧ p c = true.
Proof. inversion 1; subst. eauto. Qed.

Lemma lang_cat_inv r1 r2 w :
  lang (Cat r1 r2) w → ∃ w1 w2, w = w1 ++ w2 ∧ lang r1 w1 ∧ lang r2 w2.
Proof. inversion 1; subst. eauto. Qed.

Lemma lang_group_inv i r w : lang (Group i r) w → lang r w.
Proof. by inversion 1; subst. Qed.

Lemma lang_digits_inv r ds :
  lang r ds → r = Plus (Class is_decimal) →
  ds ≠ [] ∧ Forall (λ d, is_Some (unicode_decimal d)) ds.
Proof.
  induction 1 as [| | | | |r w Hw _|r w1 w2 Hw1 _ _ IH2|]; intros Heq; try discriminate.
  - injection Heq as ->. apply lang_class_inv in Hw as (c & -> & Hc).
    split; [done|]. constructor; [by apply is_decimal_true|done].
  - injection Heq as ->. apply lang_class_inv in Hw1 as (c & -> & Hc).
    destruct (IH2 eq_refl) as [_ Hall].
    split; [done|]. constructor; [by apply is_decimal_true|done].
Qed.

Lemma lang_digits ds :
  ds ≠ [] → Forall (λ d, is_Some (unicode_decimal d)) ds →
  lang (Plus (Class is_decimal)) ds.
Proof.
  induction ds as [|d ds IH]; [done|]. intros _ Hall.
  apply Forall_cons in Hall as [Hd Hall].
  assert (lang (Class is_decimal) [d]) as Hone.
  { constructor. by apply is_decimal_true. }
  destruct ds as [|d' ds].
  - by apply lang_plus_one.
  - apply (lang_plus_more _ [d] (d' :: ds)); [done|]. by apply IH.
Qed.

Lemma lang_alternation ls u : ls ≠ [] → lang (alternation ls) u ↔ u ∈ ls.
Proof.
  induction ls as [|l ls IH]; [done|]. intros _. destruct ls as [|l' ls].
  - simpl. rewrite list_elem_of_singleton. split.
    + inversion 1; by subst.
    + intros ->. constructor.
  - change (alternation (l :: l' :: ls)) with (Alt (Lit l) (alternation (l' :: ls))).
    rewrite elem_of_cons. split.
    + inversion 1 as [| | |? ? ? Hl|? ? ? Hr| | |]; subst.
      * left. inversion Hl; by subst.
      * right. by apply IH.
    + intros [->|Hu]; [apply lang_alt_l; constructor|apply lang_alt_r; by apply IH].
Qed.

Lemma units_nonempty : units ≠ [].
Proof. by rewrite units_eq. Qed.

Lemma lang_pair i j w :
  lang (pair_re i j) w ↔ ∃ p, valid_pair p ∧ w = p.1 ++ p.2.
Proof.
  unfold pair_re, valid_pair. split.
  - intros Hl. apply lang_cat_inv in Hl as (ds & u & -> & Hds & Hu).
    apply lang_group_inv in Hds, Hu.
    destruct (lang_digits_inv _ _ Hds eq_refl) as [Hne Hall].
    apply lang_alternation in Hu; [|apply units_nonempty].
    by exists (ds, u).
  - intros ([ds u] & (Hne & Hall & Hu) & ->). cbn [fst snd] in *.
    apply lang_cat; apply lang_group; [by apply lang_digits|].
    apply lang_alternation; [apply units_nonempty|done].
Qed.

Lemma full_pattern_eq : full_pattern = Plus (Group 1 (pair_re 2 3)).
Proof. reflexivity. Qed.

Lemma pattern_eq : pattern = pair_re 1 2.
Proof. reflexivity. Qed.

Lemma lang_group_pair_inv i j k w :
  lang (Group k (pair_re i j)) w → ∃ p, valid_pair p ∧ w = p.1 ++ p.2.
Proof. intros Hl. apply lang_group_inv in Hl. exact (proj1 (lang_pair i j w) Hl). Qed.

Lemma lang_full_inv r s : lang r s → r = full_pattern → in_grammar s.
Proof.
  rewrite full_pattern_eq.
  induction 1 as [| | | | |r w Hw _|r w1 w2 Hw1 _ _ IH2|]; intros Heq; try discriminate.
  - injection Heq as ->. apply lang_group_pair_inv in Hw as (p & Hp & ->).
    exists [p]. split; [done|]. split; [by constructor|].
    unfold render. csimpl. by rewrite app_nil_r.
  - injection Heq as ->. apply lang_group_pair_inv in Hw1 as (p & Hp & ->).
    destruct (IH2 eq_refl) as (pairs & _ & Hall & ->).
    exists (p :: pairs). split; [done|]. split; [by constructor|]. done.
Qed.

Lemma lang_full s : in_grammar s → lang full_pattern s.
Proof.
  rewrite full_pattern_eq. intros (pairs & Hne & Hall & ->).
  induction pairs as [|p pairs IH]; [done|].
  apply Forall_cons in Hall as [Hp Hall].
  assert (lang (Group 1 (pair_re 2 3)) (p.1 ++ p.2)) as Hone.
  { apply lang_group. apply (proj2 (lang_pair 2 3 _)). eauto. }
  destruct pairs as [|p' pairs].
  - unfold render. csimpl. rewrite app_nil_r. by apply lang_plus_one.
  - change (render (p :: p' :: pairs)) with ((p.1 ++ p.2) ++ render (p' :: pairs)).
    apply lang_plus_more; [done|]. by apply IH.
Qed.

(** [re.fullmatch] accepts exactly the strings of the grammar. *)
Lemma fullmatch_in_grammar s : is_Some (re_fullmatch full_pattern s) ↔ in_grammar s.
Proof.
  rewrite re_fullmatch_lang. split; [|apply lang_full].
  intros Hl. by eapply lang_full_inv.
Qed.


(** *** The matches that [re.finditer] finds are the pairs *)

Lemma plus_iter_stops fuel R caps :
  stops R → plus_iter (rmatch (Class is_decimal)) fuel R caps = [].
Proof.
  intros HR. destruct fuel as [|fuel]; [done|]. simpl.
  destruct R as [|c R]; [done|]. simpl in HR. by rewrite HR.
Qed.

Lemma plus_iter_S m fuel s caps :
  plus_iter m (S fuel) s caps =
    '(s1, c1) ← m s caps;
    (if decide (length s1 < length s) then plus_iter m fuel s1 c1 else []) ++ [(s1, c1)].
Proof. reflexivity. Qed.

Lemma rmatch_class p c s caps :
  rmatch (Class p) (c :: s) caps = if p c then [(s, caps)] else [].
Proof. reflexivity. Qed.

Lemma rmatch_cat r1 r2 s caps :
  rmatch (Cat r1 r2) s caps = '(s1, c1) ← rmatch r1 s caps; rmatch r2 s1 c1.
Proof. reflexivity. Qed.

Lemma rmatch_plus r s caps :
  rmatch (Plus r) s caps = plus_iter (rmatch r) (S (length s)) s caps.
Proof. reflexivity. Qed.

Lemma rmatch_group i r s caps :
  rmatch (Group i r) s caps =
    '(s1, c1) ← rmatch r s caps; [(s1, <[i := take (length s - length s1) s]> c1)].
Proof. reflexivity. Qed.

(** A greedy [\d+] first takes the whole run of digits. *)
Lemma digits_first ds :
  ds ≠ [] → Forall (λ d, is_Some (unicode_decimal d)) ds →
  ∀ R caps fuel, stops R → length (ds ++ R) < fuel →
    ∃ tl, plus_iter (rmatch (Class is_decimal)) fuel (ds ++ R) caps = (R, caps) :: tl.
Proof.
  induction ds as [|d ds IH]; [done|]. intros _ Hall R caps fuel HR Hfuel.
  apply Forall_cons in Hall as [Hd Hall]. apply is_decimal_true in Hd.
  destruct fuel as [|fuel]; [lia|].
  rewrite plus_iter_S. change ((d :: ds) ++ R) with (d :: (ds ++ R)).
  rewrite rmatch_class, Hd, bind_singleton.
  rewrite decide_True by (simpl; lia).
  destruct ds as [|d' ds].
  - rewrite plus_iter_stops by done. by exists [].
  - destruct (IH ltac:(done) Hall R caps fuel HR) as (tl & ->); [simpl in *; lia|].
    eexists. reflexivity.
Qed.

Lemma prefix_strip_head x p y s : x ≠ y → prefix_strip (x :: p) (y :: s) = None.
Proof. intros Hne. simpl. by apply N.eqb_neq in Hne as ->. Qed.

Lemma starts_digit_not_s R : starts_digit R → prefix_strip (str "s") R = None.
Proof.
  destruct R as [|c R]; [done|]. intros Hc. change (str "s") with [115%N].
  destruct (decide (115%N = c)) as [<-|Hne]; [exfalso|by apply prefix_strip_head].
  apply is_decimal_true in Hc as [v Hv]. by rewrite ascii_not_decimal in Hv by lia.
Qed.

(** The alternation first takes the unit that is there. *)
Lemma unit_first u R caps :
  u ∈ units → starts_digit R →
  ∃ tl, rmatch (alternation units) (u ++ R) caps = (R, caps) :: tl.
Proof.
  rewrite units_eq. intros Hu HR.
  pose proof (starts_digit_not_s R HR) as Hs.
  repeat (apply elem_of_cons in Hu as [->|Hu]); [..|by apply elem_of_nil in Hu].
  - cbn. rewrite !N.eqb_refl. destruct R; eauto.
  - cbn. rewrite !N.eqb_refl. destruct R; eauto.
  - cbn. cbn in Hs. rewrite Hs. cbn. destruct R; eauto.
  - cbn. destruct R; eauto.
  - cbn. destruct R; eauto.
  - cbn. destruct R; eauto.
  - cbn. destruct R; eauto.
Qed.

Lemma unit_stops u R : u ∈ units → stops (u ++ R).
Proof.
  intros Hu. destruct (unit_head u Hu) as (c & u' & -> & Hc). simpl.
  unfold is_decimal. rewrite ascii_not_decimal by done.
  apply bool_decide_eq_false. by intros [x Hx].
Qed.

(** On a pair followed by a digit or by nothing, the pattern first
    matches the pair, with its integer and its unit in the groups. *)
Lemma pattern_first p R :
  valid_pair p → starts_digit R →
  ∃ tl, rmatch pattern (p.1 ++ p.2 ++ R) ∅ = (R, pair_groups p) :: tl.
Proof.
  destruct p as [ds u]. intros (Hne & Hall & Hu) HR. cbn [fst snd] in *.
  rewrite pattern_eq. unfold pair_re.
  destruct (digits_first ds Hne Hall (u ++ R) ∅ (S (length (ds ++ u ++ R)))
              (unit_stops u R Hu) ltac:(lia)) as (tl1 & H1).
  rewrite rmatch_cat, rmatch_group, rmatch_plus, H1, !bind_cons.
  replace (take (length (ds ++ u ++ R) - length (u ++ R)) (ds ++ u ++ R)) with ds.
  2: { rewrite !length_app. replace (_ - _) with (length ds) by lia.
       by rewrite take_app_length. }
  cbn [app]. rewrite bind_cons. cbv beta iota. rewrite rmatch_group.
  match goal with
  | |- context [rmatch (alternation units) (u ++ R) ?c] =>
      destruct (unit_first u R c Hu HR) as (tl2 & H2)
  end.
  rewrite H2, bind_cons.
  replace (take (length (u ++ R) - length R) (u ++ R)) with u.
  2: { rewrite length_app. replace (_ - _) with (length u) by lia.
       by rewrite take_app_length. }
  unfold pair_groups. cbn [fst snd app]. eexists. reflexivity.
Qed.

Lemma render_cons p pairs : render (p :: pairs) = p.1 ++ p.2 ++ render pairs.
Proof. unfold render. rewrite bind_cons. by rewrite <- app_assoc. Qed.

Lemma render_starts_digit pairs : Forall valid_pair pairs → starts_digit (render pairs).
Proof.
  destruct 1 as [|[ds u] pairs (Hne & Hall & _) _]; [done|].
  rewrite render_cons. cbn [fst snd] in *.
  destruct Hall as [|d ds Hd _]; [done|]. simpl. by apply is_decimal_true.
Qed.

Lemma finditer_from_S fuel r s :
  finditer_from (S fuel) r s =
    let skip := match s with [] => [] | _ :: s' => finditer_from fuel r s' end in
    match head (rmatch r s ∅) with
    | Some (rest, caps) =>
        caps :: (if decide (length rest < length s) then finditer_from fuel r rest else skip)
    | None => skip
    end.
Proof. reflexivity. Qed.

Lemma finditer_render pairs :
  Forall valid_pair pairs →
  ∀ fuel, length (render pairs) < fuel →
    finditer_from fuel pattern (render pairs) = pair_groups <$> pairs.
Proof.
  induction 1 as [|p pairs Hp Hall IH]; intros fuel Hfuel.
  - destruct fuel as [|fuel]; [simpl in Hfuel; lia|]. reflexivity.
  - destruct fuel as [|fuel]; [lia|].
    rewrite finditer_from_S, render_cons. cbv zeta.
    destruct (pattern_first p (render pairs) Hp (render_starts_digit _ Hall)) as (tl & ->).
    cbn [head]. rewrite render_cons in Hfuel.
    destruct Hp as (Hne & _ & _). rewrite !length_app in *.
    assert (0 < length p.1) as Hpos by (destruct (p.1); [done|simpl; lia]).
    rewrite decide_True by lia.
    rewrite IH by lia. done.
Qed.

(** *** The sum *)

Lemma py_int_fold ds :
  Forall (λ d, is_Some (unicode_decimal d)) ds →
  ∀ a, foldl (λ acc c, a ← acc;
                       match unicode_decimal c with
                       | Some v => Ok (10 * a + v)%Z
                       | None => Raise ValueError
                       end) (Ok a) ds
       = Ok (foldl (λ a d, 10 * a + default 0 (unicode_decimal d))%Z a ds).
Proof.
  induction 1 as [|d ds [v Hv] _ IH]; intros a; [done|].
  simpl. rewrite Hv. simpl. apply IH.
Qed.

Lemma py_int_digits ds :
  ds ≠ [] → Forall (λ d, is_Some (unicode_decimal d)) ds →
  py_int ds = pair_value ds.
Proof.
  intros Hne Hall. unfold py_int, pair_value, decimal_value.
  destruct ds as [|d0 ds0] eqn:Hds; [done|]. rewrite <- Hds in *.
  case_bool_decide; [done|]. by apply py_int_fold.
Qed.

Lemma pair_value_convertible ds : convertible ds → pair_value ds = Ok (decimal_value ds).
Proof.
  unfold convertible, pair_value. intros Hc.
  rewrite bool_decide_eq_false_2; [done|lia].
Qed.

Lemma pair_value_Raise ds e : pair_value ds = Raise e → e = ValueError ∧ ¬ convertible ds.
Proof.
  unfold convertible, pair_value. case_bool_decide; [|done].
  intros [= <-]. split; [done|lia].
Qed.

(** A string of fewer than 640 digits is within every limit. *)
Lemma short_convertible ds : length ds ≤ 640 → convertible ds.
Proof.
  intros Hl. unfold convertible.
  destruct int_max_str_digits_range as [->|Hr]; [by left|right; lia].
Qed.

Lemma dict_get_units u : u ∈ units → dict_get duration_codes u = Ok (multiplier u).
Proof.
  rewrite units_eq. intros Hu.
  repeat (apply elem_of_cons in Hu as [->|Hu]; [by vm_compute|]).
  by apply elem_of_nil in Hu.
Qed.

Lemma add_pair_Raise e pairs : foldl add_pair (Raise e) pairs = Raise e.
Proof. induction pairs as [|p pairs IH]; [done|]. apply IH. Qed.

Lemma sum_components_pairs pairs :
  Forall valid_pair pairs →
  ∀ seconds, sum_components (pair_groups <$> pairs) seconds = foldl add_pair (Ok seconds) pairs.
Proof.
  induction 1 as [|[ds u] pairs (Hne & Hall & Hu) _ IH]; intros seconds; [done|].
  cbn [fst snd] in *. rewrite fmap_cons. cbn [sum_components foldl].
  unfold group, pair_groups. cbn [fst snd].
  rewrite (lookup_insert_ne _ 2 1) by done. rewrite !lookup_insert_eq. rewrite !bind_Ok.
  rewrite (py_int_digits ds Hne Hall).
  unfold add_pair at 2. rewrite bind_Ok. cbn [fst snd].
  destruct (pair_value ds) as [n|e]; [|by rewrite ?bind_Raise, add_pair_Raise].
  rewrite !bind_Ok. rewrite (dict_get_units u Hu), bind_Ok.
  destruct (py_mul (PyInt n) (multiplier u)) as [term|e]; simpl.
  - destruct (py_add seconds term) as [seconds'|e]; simpl; [apply IH|].
    by rewrite add_pair_Raise.
  - by rewrite add_pair_Raise.
Qed.

(** A string of the grammar is summed pair by pair. *)
Lemma duration_to_s_render pairs :
  pairs ≠ [] → Forall valid_pair pairs →
  duration_to_s (DStr (render pairs)) = sum_pairs pairs.
Proof.
  intros Hne Hall. unfold duration_to_s.
  destruct (proj2 (fullmatch_in_grammar (render pairs))) as [c ->].
  { by exists pairs. }
  unfold re_finditer. rewrite finditer_render by (done || lia).
  by apply sum_components_pairs.
Qed.

Lemma duration_to_s_not_in_grammar s :
  ¬ in_grammar s → duration_to_s (DStr s) = Raise ValueError.
Proof.
  intros Hs. unfold duration_to_s.
  destruct (re_fullmatch full_pattern s) as [c|] eqn:Hm; [|done].
  exfalso. apply Hs, fullmatch_in_grammar. eauto.
Qed.

Lemma multiplier_int u :
  u ∈ units → u ≠ str "ms" → multiplier u = PyInt (int_multiplier u).
Proof.
  rewrite units_eq. intros Hu Hms.
  apply elem_of_cons in Hu as [->|Hu]; [done|].
  repeat (apply elem_of_cons in Hu as [->|Hu]; [by vm_compute|]).
  by apply elem_of_nil in Hu.
Qed.

(** Without milliseconds, and with integers that [int] converts, the sum
    is an exact integer. *)
Lemma sum_pairs_exact pairs :
  Forall valid_pair pairs →
  Forall (λ p, convertible p.1) pairs → Forall (λ p, p.2 ≠ str "ms") pairs →
  ∀ a, foldl add_pair (Ok (PyInt a)) pairs = Ok (PyInt (a + exact_seconds pairs)).
Proof.
  induction 1 as [|[ds u] pairs (_ & _ & Hu) _ IH]; intros Hconv Hms a.
  - simpl. by rewrite Z.add_0_r.
  - apply Forall_cons in Hms as [Hms1 Hms]. apply Forall_cons in Hconv as [Hc1 Hconv].
    cbn [fst snd] in *.
    cbn [foldl]. unfold add_pair at 2. rewrite bind_Ok. cbn [fst snd].
    rewrite (pair_value_convertible ds Hc1), bind_Ok.
    rewrite (multiplier_int u Hu Hms1). cbn [py_mul py_add]. rewrite !bind_Ok.
    cbn [py_add]. rewrite IH by done. cbn [exact_seconds foldr fst snd].
    do 2 f_equal. unfold exact_seconds. lia.
Qed.

Lemma duration_to_s_exact pairs :
  pairs ≠ [] → Forall valid_pair pairs →
  Forall (λ p, convertible p.1) pairs → Forall (λ p, p.2 ≠ str "ms") pairs →
  duration_to_s (DStr (render pairs)) = Ok (PyInt (exact_seconds pairs)).
Proof.
  intros Hne Hall Hconv Hms. rewrite duration_to_s_render by done.
  unfold sum_pairs. by rewrite sum_pairs_exact.
Qed.

(** The arithmetic of the sum raises nothing but OverflowError. *)
Lemma py_float_overflow x e : py_float x = Raise e → e = OverflowError.
Proof.
  destruct x as [z|f]; [|done]. unfold py_float, int_to_float.
  by destruct (float_of_Z z); intros [= <-].
Qed.

Lemma py_mul_overflow x y e : py_mul x y = Raise e → e = OverflowError.
Proof.
  unfold py_mul.
  destruct x as [a|f], y as [b|g]; try done;
    repeat match goal with
    | |- context [py_float ?t] =>
        let E := fresh in
        destruct (py_float t) eqn:E; [|apply py_float_overflow in E]
    end; simpl; congruence.
Qed.

Lemma py_add_overflow x y e : py_add x y = Raise e → e = OverflowError.
Proof.
  unfold py_add.
  destruct x as [a|f], y as [b|g]; try done;
    repeat match goal with
    | |- context [py_float ?t] =>
        let E := fresh in
        destruct (py_float t) eqn:E; [|apply py_float_overflow in E]
    end; simpl; congruence.
Qed.

(** The sum raises OverflowError, from its arithmetic, or ValueError, for
    an integer with more digits than [int] converts. *)
Lemma sum_pairs_errors pairs : ∀ acc e,
  (∀ e', acc = Raise e' → e' = OverflowError ∨ (e' = ValueError ∧ False)) →
  foldl add_pair acc pairs = Raise e →
  e = OverflowError ∨ (e = ValueError ∧ Exists (λ p, ¬ convertible p.1) pairs).
Proof.
  induction pairs as [|p pairs IH]; intros acc e Hacc; cbn [foldl].
  { intros He. destruct (Hacc e He) as [->|[_ []]]. by left. }
  destruct acc as [seconds|e0].
  2:{ change (add_pair (Raise e0) p) with (@Raise pynum e0).
      rewrite add_pair_Raise. intros [= <-].
      destruct (Hacc e0 eq_refl) as [->|[_ []]]. by left. }
  change (add_pair (Ok seconds) p)
    with (n ← pair_value p.1;
          term ← py_mul (PyInt n) (multiplier p.2); py_add seconds term).
  destruct (pair_value p.1) as [n|e1] eqn:Hn.
  2:{ rewrite bind_Raise, add_pair_Raise. intros [= <-].
      apply pair_value_Raise in Hn as [-> Hn]. right. split; [done|by left]. }
  rewrite bind_Ok. intros He.
  destruct (IH (term ← py_mul (PyInt n) (multiplier p.2); py_add seconds term) e)
    as [->|[-> Hex]]; [|done|by left|right; split; [done|by right]].
  intros e' He'. left.
  destruct (py_mul _ _) as [term|e1] eqn:Hmul.
  - rewrite bind_Ok in He'. by eapply py_add_overflow.
  - injection He' as <-. by eapply py_mul_overflow.
Qed.

Lemma sum_pairs_convertible pairs e :
  Forall (λ p, convertible p.1) pairs → sum_pairs pairs = Raise e → e = OverflowError.
Proof.
  intros Hconv He. apply sum_pairs_errors in He as [->|[_ Hex]]; [done| |by intros e' [=]].
  exfalso. apply Exists_exists in Hex as (p & Hp & Hn).
  by apply Hn, (proj1 (Forall_forall _ _) Hconv).
Qed.

Lemma in_grammar_head s :
  in_grammar s → ∃ c s', s = c :: s' ∧ is_Some (unicode_decimal c).
Proof.
  intros ([|[ds u] pairs] & Hne & Hall & ->); [done|].
  apply Forall_cons in Hall as [(Hds & Hdec & _) _]. cbn [fst snd] in *.
  rewrite render_cons. cbn [fst snd].
  destruct Hdec as [|d ds Hd _]; [done|]. eauto.
Qed.

(** C7, as amended: a float is passed through and an int is converted
    with [float]; a string that is not one or more [<integer><unit>] pairs
    with a unit among ms, s, m, h, d, w and y raises ValueError; a string of
    pairs is summed from left to right, integer times multiplier (ms=0.001,
    s=1, m=60, h=3600, d=86400, w=604800, y=31536000), in Python's
    arithmetic. The sum raises OverflowError when an int operand of a float
    operation has no binary64, and ValueError when [int] refuses an integer
    for its number of digits (more than 4300 by default); so ValueError is
    raised exactly by the strings outside the grammar and by those whose
    sum stops at such an integer. With integers that [int] converts and no
    pair in milliseconds the result is the exact integer sum, so that
    ["1h30m"] yields 5400 and ["2d"] yields 172800, which equal the floats
    of the spec; ["abc"] raises ValueError. *)
Theorem duration_to_s_grammar_and_sum :
  (∀ f, duration_to_s (DFloat f) = Ok (PyFloat f))
  ∧ (∀ z, duration_to_s (DInt z) = PyFloat <$> int_to_float z)
  ∧ (∀ s, ¬ in_grammar s → duration_to_s (DStr s) = Raise ValueError)
  ∧ (∀ pairs, pairs ≠ [] → Forall valid_pair pairs →
       duration_to_s (DStr (render pairs)) = sum_pairs pairs
       ∧ (∀ e, sum_pairs pairs = Raise e →
            e = OverflowError
            ∨ (e = ValueError ∧ Exists (λ p, ¬ convertible p.1) pairs))
       ∧ (Forall (λ p, convertible p.1) pairs →
          Forall (λ p, p.2 ≠ str "ms") pairs →
          duration_to_s (DStr (render pairs)) = Ok (PyInt (exact_seconds pairs))))
  ∧ (∀ s, duration_to_s (DStr s) = Raise ValueError ↔
          ¬ in_grammar s
          ∨ ∃ pairs, Forall valid_pair pairs ∧ s = render pairs
                     ∧ sum_pairs pairs = Raise ValueError)
  ∧ (∀ ds, length ds ≤ 640 → convertible ds)
  ∧ duration_to_s (DStr (str "1h30m")) = Ok (PyInt 5400)
  ∧ duration_to_s (DStr (str "2d")) = Ok (PyInt 172800)
  ∧ py_eqb (PyInt 5400) (PyFloat (float_of_Z 5400)) = true
  ∧ py_eqb (PyInt 172800) (PyFloat (float_of_Z 172800)) = true
  ∧ duration_to_s (DStr (str "abc")) = Raise ValueError.
Proof.
  assert (∀ d, (48 ≤ d ≤ 57)%N → is_Some (unicode_decimal d)) as Hdigit.
  { intros d Hd. rewrite ascii_digit_decimal by done. eauto. }
  assert (∀ ds u, ds ≠ [] → Forall (λ d, (48 ≤ d ≤ 57)%N) ds → u ∈ units →
            valid_pair (ds, u)) as Hvalid.
  { intros ds u Hne Hds Hu. split; [done|]. split; [|done].
    eapply Forall_impl; [exact Hds|]. apply Hdigit. }
  assert (valid_pair ([49%N], [104%N]) ∧ valid_pair ([51%N; 48%N], [109%N])
          ∧ valid_pair ([50%N], [100%N])) as (Hp1 & Hp2 & Hp3).
  { repeat split; try done; cbn [fst snd];
      try (rewrite units_eq; repeat ((by left) || right));
      repeat (apply List.Forall_cons; [apply Hdigit; lia|]); apply List.Forall_nil. }
  split; [done|]. split; [done|]. split; [apply duration_to_s_not_in_grammar|].
  split; [|split; [|split; [|split; [|split]]]].
  - intros pairs Hne Hall. split; [by apply duration_to_s_render|]. split.
    + intros e. apply sum_pairs_errors. by intros e' [=].
    + by apply duration_to_s_exact.
  - intros s. split.
    + intros Hs. destruct (re_fullmatch full_pattern s) as [c|] eqn:Hm.
      * right. destruct (proj1 (fullmatch_in_grammar s)) as (pairs & Hne & Hall & ->);
          [by rewrite Hm|].
        exists pairs. split; [done|]. split; [done|].
        by rewrite <- duration_to_s_render.
      * left. intros Hin. apply fullmatch_in_grammar in Hin as [c Hc]. congruence.
    + intros [Hout|(pairs & Hall & -> & Hsum)].
      * by apply duration_to_s_not_in_grammar.
      * destruct pairs as [|p pairs]; [done|]. by rewrite duration_to_s_render.
  - apply short_convertible.
  - change (str "1h30m") with (render [([49%N], [104%N]); ([51%N; 48%N], [109%N])]).
    rewrite duration_to_s_exact.
    + unfold exact_seconds, decimal_value. cbn [foldr foldl fst snd].
      rewrite !ascii_digit_decimal by lia. reflexivity.
    + done.
    + repeat (apply List.Forall_cons; [assumption|]); apply List.Forall_nil.
    + repeat (apply List.Forall_cons; [apply short_convertible; simpl; lia|]);
        apply List.Forall_nil.
    + repeat (apply List.Forall_cons; [done|]); apply List.Forall_nil.
  - change (str "2d") with (render [([50%N], [100%N])]).
    rewrite duration_to_s_exact.
    + unfold exact_seconds, decimal_value. cbn [foldr foldl fst snd].
      rewrite !ascii_digit_decimal by lia. reflexivity.
    + done.
    + repeat (apply List.Forall_cons; [assumption|]); apply List.Forall_nil.
    + repeat (apply List.Forall_cons; [apply short_convertible; simpl; lia|]);
        apply List.Forall_nil.
    + repeat (apply List.Forall_cons; [done|]); apply List.Forall_nil.
  - split; [by vm_compute|]. split; [by vm_compute|].
    apply duration_to_s_not_in_grammar. intros Hg.
    apply in_grammar_head in Hg as (c & s' & [= <- _] & [v Hv]).
    by rewrite ascii_not_decimal in Hv by (vm_compute; split; [discriminate|reflexivity]).
Qed.

End DurationParser.

(** The string of a 1, 309 zeros and [ms] is in the grammar, but the
    integer it holds has no binary64: [duration_to_s] raises OverflowError
    on it instead of returning a sum, as it does on the int 10 ^ 309. The
    string of 4301 digits and [s] is in the grammar too, and raises
    ValueError, as a string outside the grammar does: [int] refuses it. *)
Lemma duration_to_s_overflow :
  @in_grammar ascii_externals overflow_text
  ∧ @duration_to_s ascii_externals (DStr overflow_text) = Raise OverflowError
  ∧ @duration_to_s ascii_externals (DInt (10 ^ 309)) = Raise OverflowError
  ∧ @in_grammar ascii_externals long_text
  ∧ @duration_to_s ascii_externals (DStr long_text) = Raise ValueError.
Proof.
  split; [|split; [by vm_compute|split; [by vm_compute|]]].
  { exists [(str "1" ++ replicate 309 48%N, str "ms")].
    split; [done|]. split; [|by vm_compute].
    apply List.Forall_cons; [|apply List.Forall_nil].
    split; [done|]. split; cbn [fst snd].
    - apply Forall_app. split.
      + apply List.Forall_cons; [by eexists|apply List.Forall_nil].
      + apply Forall_replicate. by eexists.
    - by left. }
  assert (@valid_pair ascii_externals (replicate 4301 49%N, str "s")) as Hvalid.
  { split; [done|]. split; cbn [fst snd].
    - apply Forall_replicate. by eexists.
    - right. by left. }
  assert (long_text = @render [(replicate 4301 49%N, str "s")]) as Htext.
  { unfold long_text, render. rewrite bind_cons. cbn [fst snd]. by rewrite app_nil_r. }
  split.
  - exists [(replicate 4301 49%N, str "s")]. split; [done|]. split; [|done].
    by apply List.Forall_cons; [|apply List.Forall_nil].
  - rewrite Htext. rewrite (@duration_to_s_render ascii_externals); [|done|].
    2:{ by apply List.Forall_cons; [|apply List.Forall_nil]. }
    unfold sum_pairs. cbn [foldl]. unfold add_pair. rewrite bind_Ok. cbn [fst snd].
    unfold pair_value. rewrite length_replicate.
    rewrite bool_decide_eq_true_2; [done|]. cbn [int_max_str_digits ascii_externals]. lia.
Qed.
